(** * specialeffects: effect composition, scheduling and colour easing

    A shallow embedding of [specialeffects/easing.py] and
    [specialeffects/specialeffects.py].

    Conventions of the embedding.
    - Python floats (and the integers mixed with them) are idealised as real
      numbers [R]; [%] and [int()] are written out below. [interpolate_color]
      is modelled a second time on binary64 values ([Binary64]), where the
      rounding of every operation is that of the source.
    - Python objects that have identity and are mutated in place ([Section]
      objects and the [list] objects they share) live in an explicit store
      and are referred to by their address.
    - An [async def] is a computation in the monad [M]: it threads the state
      of the event loop (virtual clock, log of device calls, created tasks)
      and ends with a value, with a raised exception, or does not end within
      the fuel given.
    - The closures that the builder stores in a [LightEffect] are
      defunctionalised: one constructor of [closure] per [async def effect]
      / [lambda] of the source. *)

From Stdlib Require Import Reals Lra Lia ZArith QArith Qround SpecFloat String List.
From stdpp Require Import gmap strings list.

Close Scope Q_scope.

Open Scope string_scope.
Open Scope list_scope.

(** ** Python arithmetic on reals *)

Module PyNum.
Local Open Scope R_scope.

(** [x % m] on floats: the result has the sign of the divisor. *)
Definition py_mod (x m : R) : R := x - m * IZR (Int_part (x / m)).

(** [int(x)]: truncation towards zero. *)
Definition py_int (x : R) : Z :=
  if Rle_dec 0 x then Int_part x else (- Int_part (- x))%Z.
End PyNum.

(** ** easing.py *)

Module Easing.
Import PyNum.
Local Open Scope R_scope.

Definition linear (t : R) : R := t.

Definition quadratic_in (t : R) : R := t ^ 2.

Definition quadratic_out (t : R) : R := 1 - (1 - t) ^ 2.

Definition quadratic_in_out (t : R) : R :=
  if Rlt_dec t (1 / 2) then 2 * t ^ 2
  else 1 - (-2 * t + 2) ^ 2 / 2.

Definition cubic_in (t : R) : R := t ^ 3.

Definition cubic_out (t : R) : R := 1 - (1 - t) ^ 3.

Definition cubic_in_out (t : R) : R :=
  if Rlt_dec t (1 / 2) then 4 * t ^ 3
  else 1 - (-2 * t + 2) ^ 3 / 2.

Definition sine_in (t : R) : R := 1 - cos ((t * PI) / 2).

Definition sine_out (t : R) : R := sin ((t * PI) / 2).

Definition sine_in_out (t : R) : R := - (cos (PI * t) - 1) / 2.

(** A colour is the triple [(hue, saturation, value)]. [interpolate_color]
    is here the idealisation on reals that the sampled colours of a
    transition are logged with; it agrees with the source on integer colours
    at progress 0 and 1. [Binary64.interpolate_color] follows the rounding of
    the source. *)
Definition color : Type := R * R * R.

Definition interpolate_color (start_color end_color : color) (progress : R)
  : Z * Z * Z :=
  let '(start_h, start_s, start_v) := start_color in
  let '(end_h, end_s, end_v) := end_color in
  let end_h := if Rlt_dec end_h start_h then end_h + 360 else end_h in
  let interpolated_h := py_mod (start_h + (end_h - start_h) * progress) 360 in
  let interpolated_s := start_s + (end_s - start_s) * progress in
  let interpolated_v := start_v + (end_v - start_v) * progress in
  (py_int interpolated_h, py_int interpolated_s, py_int interpolated_v).

(** The objects bound in the module's global namespace, which
    [interpolate_color_over_time] indexes with the easing name. *)
Inductive pyobj :=
| PyModule (name : string)
| PyEasing (f : R -> R)
| PyFunction (name : string)
| PyAttr (name : string).

(** [globals()] of easing.py: the two imported modules, every [def] of the
    file, and the attributes every module carries. *)
Definition globals : list (string * pyobj) :=
  [ ("__name__", PyAttr "__name__"); ("__doc__", PyAttr "__doc__");
    ("__package__", PyAttr "__package__"); ("__loader__", PyAttr "__loader__");
    ("__spec__", PyAttr "__spec__"); ("__file__", PyAttr "__file__");
    ("__cached__", PyAttr "__cached__"); ("__builtins__", PyAttr "__builtins__");
    ("asyncio", PyModule "asyncio"); ("math", PyModule "math");
    ("linear", PyEasing linear);
    ("quadratic_in", PyEasing quadratic_in);
    ("quadratic_out", PyEasing quadratic_out);
    ("quadratic_in_out", PyEasing quadratic_in_out);
    ("cubic_in", PyEasing cubic_in);
    ("cubic_out", PyEasing cubic_out);
    ("cubic_in_out", PyEasing cubic_in_out);
    ("sine_in", PyEasing sine_in);
    ("sine_out", PyEasing sine_out);
    ("sine_in_out", PyEasing sine_in_out);
    ("interpolate_color", PyFunction "interpolate_color");
    ("interpolate_color_over_time", PyFunction "interpolate_color_over_time") ].

Fixpoint getitem (d : list (string * pyobj)) (key : string) : option pyobj :=
  match d with
  | [] => None
  | (k, v) :: d' => if String.eqb k key then Some v else getitem d' key
  end.

(** The easing functions that easing.py defines, by name. *)
Definition easing_functions : list (string * (R -> R)) :=
  [ ("linear", linear);
    ("quadratic_in", quadratic_in); ("quadratic_out", quadratic_out);
    ("quadratic_in_out", quadratic_in_out);
    ("cubic_in", cubic_in); ("cubic_out", cubic_out);
    ("cubic_in_out", cubic_in_out);
    ("sine_in", sine_in); ("sine_out", sine_out);
    ("sine_in_out", sine_in_out) ].
End Easing.

(** ** easing.py: [interpolate_color] in binary64

    A Python float is an IEEE 754 binary64 value, given by its sign,
    mantissa and exponent ([spec_float], with [prec = 53] and
    [emax = 1024]); [+], [-] and [*] round to nearest even. An [int]
    argument is read as the float it converts to, which is exact below
    2^53. *)

Module Binary64.
Local Open Scope Z_scope.

Definition prec : Z := 53.
Definition emax : Z := 1024.

Definition add : spec_float -> spec_float -> spec_float := SFadd prec emax.
Definition sub : spec_float -> spec_float -> spec_float := SFsub prec emax.
Definition mul : spec_float -> spec_float -> spec_float := SFmul prec emax.
Definition lt : spec_float -> spec_float -> bool := SFltb.

(** [float(n)] *)
Definition of_int (n : Z) : spec_float := binary_normalize prec emax n 0 false.

(** The float [0.5]. *)
Definition one_half : spec_float := S754_finite false 4503599627370496 (-53).

(** What a conversion to [int] gives: a value, or the exception that
    [int()] raises on a NaN and on an infinity. *)
Inductive outcome (A : Type) :=
| Value (a : A)
| ValueError_nan
| OverflowError_infinity.
Arguments Value {A} a.
Arguments ValueError_nan {A}.
Arguments OverflowError_infinity {A}.

(** [int(x)] for a float [x]: the integer part of [m * 2^e], with the
    sign of [x]. *)
Definition py_int (x : spec_float) : outcome Z :=
  match x with
  | S754_zero _ => Value 0
  | S754_finite s m e =>
      Value (cond_Zopp s
               match e with
               | Zneg k => Zpos m / Zpos (2 ^ k)
               | _ => Zpos m * 2 ^ e
               end)
  | S754_infinity _ => OverflowError_infinity
  | S754_nan => ValueError_nan
  end.

(** C's [fmod(x, 360.0)]: exact, with the sign of [x]. The result is
    given by its mantissa and exponent as they come out of the division; it
    is used by value only. *)
Definition fmod_360 (x : spec_float) : spec_float :=
  match x with
  | S754_nan | S754_infinity _ => S754_nan
  | S754_zero s => S754_zero s
  | S754_finite s m e =>
      match e with
      | Zneg k =>
          match Zpos m mod (360 * Zpos (2 ^ k)) with
          | Zpos r => S754_finite s r e
          | _ => S754_zero s
          end
      | _ =>
          match (Zpos m * 2 ^ e) mod 360 with
          | Zpos r => S754_finite s r 0
          | _ => S754_zero s
          end
      end
  end.

(** [x % 360] for a float [x] (CPython's [float_rem]): [fmod], moved
    into the range of the divisor by one float addition when it is negative,
    and [+0.0] when it is zero. *)
Definition py_mod_360 (x : spec_float) : spec_float :=
  let mod_ := fmod_360 x in
  match mod_ with
  | S754_zero _ => S754_zero false
  | S754_finite true _ _ => add mod_ (of_int 360)
  | _ => mod_
  end.

(** [interpolate_color], every [+], [-], [*] and [%] rounded as the
    source rounds it. The components and [progress] are floats; integer
    components (below [2^53] in size) give the same values, their integer
    arithmetic being exact. The result is the tuple of the three [int()]
    conversions, or the exception of the first one that raises. *)
Definition interpolate_color
    (start_color end_color : spec_float * spec_float * spec_float)
    (progress : spec_float) : outcome (Z * Z * Z) :=
  let '(start_h, start_s, start_v) := start_color in
  let '(end_h, end_s, end_v) := end_color in
  let end_h := if lt end_h start_h then add end_h (of_int 360) else end_h in
  let interpolated_h :=
    py_mod_360 (add start_h (mul (sub end_h start_h) progress)) in
  let interpolated_s := add start_s (mul (sub end_s start_s) progress) in
  let interpolated_v := add start_v (mul (sub end_v start_v) progress) in
  match py_int interpolated_h with
  | Value h =>
      match py_int interpolated_s with
      | Value s =>
          match py_int interpolated_v with
          | Value v => Value (h, s, v)
          | ValueError_nan => ValueError_nan
          | OverflowError_infinity => OverflowError_infinity
          end
      | ValueError_nan => ValueError_nan
      | OverflowError_infinity => OverflowError_infinity
      end
  | ValueError_nan => ValueError_nan
  | OverflowError_infinity => OverflowError_infinity
  end.
End Binary64.

(** ** Data model of specialeffects.py *)

(** A registered light: the identity of the device object. Device objects
    are ordinary instances, hence truthy and not lists. *)
Inductive device := Device (id : nat).

Inductive player := DefaultPlayer | Player (id : nat).

(** Arguments handed to a custom callable. *)
Inductive pyarg := PInt (z : Z) | PStr (s : string) | PNone.

Inductive LightAction := TURN_ON | TURN_OFF | SET_COLOR.

Definition value (a : LightAction) : string :=
  match a with
  | TURN_ON => "turn_on"
  | TURN_OFF => "turn_off"
  | SET_COLOR => "set_color"
  end.

(** Addresses of [Section] objects and of [list] objects in the store. *)
Definition addr := nat.

(** What an awaited device, player or scheduler call leaves in the log. *)
#[warnings="-register-all"] Inductive event :=
| EvCall (light : device) (method : string) (args : list R)
| EvPlaySound (p : player) (sound_file : string)
| EvThread (func : string) (args : list pyarg) (kwargs : list (string * pyarg))
| EvSleep (delay : R)
| EvCreateTask (task : nat) (section : addr)
| EvGather (branches : list (list event)).

(** The exceptions of the source and of the Python operations it uses.
    [DanglingAddress] stands for an address without an object in the store,
    which no store made by the builder contains. *)
Inductive exn :=
| ValueError (msg : string)
| KeyError (key : string)
| TypeError (msg : string)
| ZeroDivisionError
| DanglingAddress (a : addr).

(** What [await effect.run()] evaluates to. *)
Inductive pyvalue := VNone | VTask (task : nat).

(** The [async def effect] closures and the [lambda] that the builder wraps
    in a [LightEffect], with the variables they capture. *)
Inductive closure :=
| LightActionClosure (name : string) (action : LightAction)
| LightColorClosure (name : string) (color : Easing.color)
| ColorTransitionClosure (name : string) (start_color end_color : Easing.color)
    (duration : R) (easing_type : string)
| DelayClosure (seconds : R).

(** Leaf effects. [repeat = None] is the unbounded repeat. *)
Inductive leaf :=
| SoundEffect (sound_file : string) (p : player) (repeat : option Z)
| LightEffect (effect : closure) (repeat : option Z)
| CustomEffect (func : string) (args : list pyarg) (kwargs : list (string * pyarg)).

(** [Effect.__init__] stores [repeat] as given; [CustomEffect.__init__]
    passes [repeat=1] to it. *)
Definition leaf_repeat (l : leaf) : option Z :=
  match l with
  | SoundEffect _ _ repeat => repeat
  | LightEffect _ repeat => repeat
  | CustomEffect _ _ _ => Some 1%Z
  end.

(** An element of an [effects] list: a leaf, or a reference to a [Section]
    object. *)
Inductive effect_ref := RLeaf (l : leaf) | RSection (s : addr).

(** A [Section] object; [sec_effects] is the address of its list. *)
Record section_obj := mkSection {
  sec_effects : addr;
  sec_parallel : bool;
  sec_repeat : option Z;
  sec_name : option string
}.

(** The objects allocated so far, by address. *)
Record store := mkStore {
  sections : list section_obj;
  lists : list (list effect_ref)
}.

(** The orchestrator. [effects] is its top-level list, which no [Section]
    shares; [heap] holds the [Section] and list objects it has allocated. *)
Record SpecialEffect := mkSpecialEffect {
  lights : gmap string device;
  light_groups : gmap string (list device);
  effects : list effect_ref;
  named_effects : gmap string addr;
  _current_section : option addr;
  heap : store
}.

(** ** The event loop *)

Record loop_state := mkLoop {
  time : R;
  log : list event;
  tasks : list addr
}.

Inductive result (A : Type) :=
| Ok (a : A)
| Raise (e : exn)
| Pending.
Arguments Ok {A} a.
Arguments Raise {A} e.
Arguments Pending {A}.

Definition M (A : Type) : Type := loop_state -> result A * loop_state.

Definition ret {A} (a : A) : M A := fun st => (Ok a, st).

Definition bind {A B} (m : M A) (k : A -> M B) : M B :=
  fun st =>
    match m st with
    | (Ok a, st') => k a st'
    | (Raise e, st') => (Raise e, st')
    | (Pending, st') => (Pending, st')
    end.

Definition raise {A} (e : exn) : M A := fun st => (Raise e, st).

Definition pending {A} : M A := fun st => (Pending, st).

Declare Scope async_scope.
Delimit Scope async_scope with async.
Notation "x <- m ;; k" := (bind m (fun x => k))
  (at level 100, m at next level, k at level 200, right associativity) : async_scope.
Notation "m ;; k" := (bind m (fun _ => k))
  (at level 100, k at level 200, right associativity) : async_scope.
Local Open Scope async_scope.

Definition emit (e : event) : M unit :=
  fun st => (Ok tt, mkLoop (time st) (log st ++ [e]) (tasks st)).

(** [loop.time()] *)
Definition get_time : M R := fun st => (Ok (time st), st).

(** [await asyncio.sleep(delay)]: a non-positive delay only yields. *)
Definition sleep (delay : R) : M unit :=
  fun st => (Ok tt, mkLoop (time st + Rmax delay 0) (log st ++ [EvSleep delay]) (tasks st)).

(** [asyncio.create_task(section.run())]: the handle is the index of the
    task among those created. The model records the task and goes on with
    the caller: the run of the task itself, which the event loop interleaves
    from the next suspension of the caller on, is not part of the caller's
    computation, and [asyncio.run]'s cancellation of the tasks left at the
    end of [play] is not modelled. A statement that the caller returns
    therefore presupposes a task that gives the loop back. *)
Definition create_task (s : addr) : M nat :=
  fun st =>
    let t := length (tasks st) in
    (Ok t, mkLoop (time st) (log st ++ [EvCreateTask t s]) (tasks st ++ [s])).

(** [for x in xs: await body(x)] *)
Fixpoint for_each {A} (xs : list A) (body : A -> M unit) : M unit :=
  match xs with
  | [] => ret tt
  | x :: xs' => body x ;; for_each xs' body
  end.

(** [for _ in range(n)] *)
Fixpoint iterate (n : nat) (body : M unit) : M unit :=
  match n with
  | O => ret tt
  | S n' => body ;; iterate n' body
  end.

(** [for _ in itertools.count()]: never leaves the loop normally. *)
Fixpoint forever (fuel : nat) (body : M unit) : M unit :=
  match fuel with
  | O => pending
  | S fuel' => body ;; forever fuel' body
  end.

(** [for _ in range(repeat) if repeat is not None else itertools.count()] *)
Definition repeat_loop (fuel : nat) (repeat : option Z) (body : M unit) : M unit :=
  match repeat with
  | Some n => iterate (Z.to_nat n) body
  | None => forever fuel body
  end.

(** [asyncio.gather] of the awaitables [aws]: the awaitables start together and the call ends
    when all of them have; each branch keeps a log of its own. An exception
    of a branch is raised to the caller (the first in list order here). *)
Fixpoint fan_out {A} (aws : list (M A)) (now : R) (ts : list addr)
  : list (result A * loop_state) :=
  match aws with
  | [] => []
  | aw :: aws' =>
      let out := aw (mkLoop now [] ts) in
      out :: fan_out aws' now (tasks (snd out))
  end.

Fixpoint fan_in {A} (outs : list (result A * loop_state)) : result (list A) :=
  match outs with
  | [] => Ok []
  | (r, _) :: outs' =>
      match r, fan_in outs' with
      | Raise e, _ => Raise e
      | _, Raise e => Raise e
      | Pending, _ => Pending
      | _, Pending => Pending
      | Ok a, Ok l => Ok (a :: l)
      end
  end.

Definition gather {A} (aws : list (M A)) : M (list A) :=
  fun st =>
    let outs := fan_out aws (time st) (tasks st) in
    (fan_in outs,
     mkLoop (fold_right Rmax (time st) (map (fun o => time (snd o)) outs))
            (log st ++ [EvGather (map (fun o => log (snd o)) outs)])
            (List.last (map (fun o => tasks (snd o)) outs) (tasks st))).

(** ** Running leaf effects *)

(** [await light.method(args)] *)
Definition call (light : device) (method : string) (args : list R) : M unit :=
  emit (EvCall light method args).

(** What [dict.get] hands back in [_get_targets], with Python's truth value
    of it. *)
Inductive pyref :=
| RefNone
| RefLight (d : device)
| RefList (l : list device).

Definition truthy (x : pyref) : bool :=
  match x with
  | RefNone => false
  | RefLight _ => true
  | RefList [] => false
  | RefList (_ :: _) => true
  end.

Definition py_or (x y : pyref) : pyref := if truthy x then x else y.

Definition lights_get (se : SpecialEffect) (name : string) : pyref :=
  match lights se !! name with
  | Some d => RefLight d
  | None => RefNone
  end.

Definition light_groups_get (se : SpecialEffect) (name : string) : pyref :=
  match light_groups se !! name with
  | Some l => RefList l
  | None => RefNone
  end.

Definition not_found (name : string) : string :=
  ("Light or group '" ++ name ++ "' not found.")%string.

Definition _get_targets (se : SpecialEffect) (name : string) : M (list device) :=
  let targets := py_or (lights_get se name) (light_groups_get se name) in
  match targets with
  | RefNone => raise (ValueError (not_found name))
  | RefList l => ret l
  | RefLight d => ret [d]
  end.

Definition color_args (c : Z * Z * Z) : list R :=
  let '(h, s, v) := c in [IZR h; IZR s; IZR v].

(** The loop of the generator [interpolate_color_over_time]; [body] is the
    body of the [async for] that consumes it. *)
Fixpoint sample_loop (fuel : nat) (easing_function : Easing.pyobj)
    (start_color end_color : Easing.color) (duration start_time : R)
    (body : Z * Z * Z -> M unit) : M unit :=
  match fuel with
  | O => pending
  | S fuel' =>
      current_time <- get_time ;;
      if Req_dec_T duration 0 then raise ZeroDivisionError
      else
        let progress := ((current_time - start_time) / duration)%R in
        if Rge_dec progress 1 then ret tt
        else
          match easing_function with
          | Easing.PyEasing f =>
              let eased_progress := f progress in
              let current_color :=
                Easing.interpolate_color start_color end_color eased_progress in
              body current_color ;;
              sleep (1 / 10) ;;
              sample_loop fuel' easing_function start_color end_color
                duration start_time body
          | Easing.PyModule n => raise (TypeError n)
          | Easing.PyFunction n => raise (TypeError n)
          | Easing.PyAttr n => raise (TypeError n)
          end
  end.

Definition interpolate_color_over_time (fuel : nat)
    (start_color end_color : Easing.color) (duration : R) (easing_func : string)
    (body : Z * Z * Z -> M unit) : M unit :=
  match Easing.getitem Easing.globals easing_func with
  | None => raise (KeyError easing_func)
  | Some easing_function =>
      start_time <- get_time ;;
      sample_loop fuel easing_function start_color end_color duration
        start_time body
  end.

(** [await self.effect()] for each closure the builder creates. *)
Definition call_closure (fuel : nat) (se : SpecialEffect) (c : closure) : M unit :=
  match c with
  | LightActionClosure name action =>
      targets <- _get_targets se name ;;
      for_each targets (fun light => call light (value action) [])
  | LightColorClosure name (h, s, v) =>
      targets <- _get_targets se name ;;
      for_each targets (fun light => call light "set_color" [h; s; v])
  | ColorTransitionClosure name start_color end_color duration easing_type =>
      targets <- _get_targets se name ;;
      interpolate_color_over_time fuel start_color end_color duration easing_type
        (fun color =>
           gather (map (fun light => call light "set_color" (color_args color))
                       targets) ;;
           ret tt)
  | DelayClosure seconds => sleep seconds
  end.

(** [run] of the three leaf classes. *)
Definition run_leaf (fuel : nat) (se : SpecialEffect) (l : leaf) : M pyvalue :=
  match l with
  | SoundEffect sound_file p repeat =>
      repeat_loop fuel repeat (emit (EvPlaySound p sound_file)) ;;
      ret VNone
  | LightEffect effect repeat =>
      repeat_loop fuel repeat (call_closure fuel se effect) ;;
      ret VNone
  | CustomEffect func args kwargs =>
      emit (EvThread func args kwargs) ;;
      ret VNone
  end.

(** ** Section.run *)

(** [Section._run_effect]; [run] is [effect.run] of the child. *)
Definition _run_effect (run : effect_ref -> M pyvalue) (h : store)
    (effect : effect_ref) : M pyvalue :=
  match effect with
  | RSection s =>
      match sections h !! s with
      | Some sec =>
          match sec_repeat sec with
          | None =>
              task <- create_task s ;;
              sleep 0 ;;
              ret (VTask task)
          | Some _ => run effect
          end
      | None => run effect
      end
  | RLeaf _ => run effect
  end.

(** [effect.run()] for every kind of effect. The fuel bounds the nesting
    depth that is followed and the iterations of unbounded loops. *)
Fixpoint run (fuel : nat) (se : SpecialEffect) (e : effect_ref) : M pyvalue :=
  match e with
  | RLeaf l => run_leaf fuel se l
  | RSection s =>
      match fuel with
      | O => pending
      | S fuel' =>
          match sections (heap se) !! s with
          | None => raise (DanglingAddress s)
          | Some sec =>
              let children := default [] (lists (heap se) !! sec_effects sec) in
              repeat_loop fuel' (sec_repeat sec)
                (if sec_parallel sec then
                   gather (map (_run_effect (run fuel' se) (heap se)) children) ;;
                   ret tt
                 else
                   for_each children
                     (fun effect =>
                        _run_effect (run fuel' se) (heap se) effect ;; ret tt)) ;;
              ret VNone
          end
      end
  end.

(** ** SpecialEffect.play *)

(** The first loop of [_play_async]; its value is the local [tasks]. *)
Fixpoint play_loop (fuel : nat) (se : SpecialEffect) (todo : list effect_ref)
    (collected : list nat) : M (list nat) :=
  match todo with
  | [] => ret collected
  | effect :: todo' =>
      r <- run fuel se effect ;;
      play_loop fuel se todo'
        (match r with
         | VTask t => collected ++ [t]
         | VNone => collected
         end)
  end.

(** Awaiting a task handle: the task is the [run] of the section it was
    created for. *)
Definition await_task (fuel : nat) (se : SpecialEffect) (t : nat) : M pyvalue :=
  fun st =>
    match tasks st !! t with
    | Some s => run fuel se (RSection s) st
    | None => (Raise (DanglingAddress t), st)
    end.

Definition _play_async (fuel : nat) (se : SpecialEffect) : M unit :=
  collected <- play_loop fuel se (effects se) [] ;;
  match collected with
  | [] => ret tt
  | _ :: _ => gather (map (await_task fuel se) collected) ;; ret tt
  end.

(** [asyncio.run] starts a fresh event loop. *)
Definition fresh_loop : loop_state := mkLoop 0 [] [].

Definition play (fuel : nat) (se : SpecialEffect) : result unit * loop_state :=
  _play_async fuel se fresh_loop.

(** ** The builder *)

Definition alloc_list (l : list effect_ref) (h : store) : addr * store :=
  (length (lists h), mkStore (sections h) (lists h ++ [l])).

Definition alloc_section (s : section_obj) (h : store) : addr * store :=
  (length (sections h), mkStore (sections h ++ [s]) (lists h)).

(** [l.append(e)] on the list object at address [a]. *)
Definition list_append (a : addr) (e : effect_ref) (h : store) : store :=
  mkStore (sections h) (alter (fun l => l ++ [e]) a (lists h)).

(** [x in l] for a [Section] object [x]: no class defines [__eq__], so
    membership is identity. *)
Definition contains (l : list effect_ref) (x : addr) : bool :=
  existsb (fun e => match e with RSection s => Nat.eqb s x | RLeaf _ => false end) l.

(** Truth value of the [name] argument: [None] and the empty string are
    false. *)
Definition name_truthy (name : option string) : bool :=
  match name with
  | Some (String _ _) => true
  | _ => false
  end.

(** [SpecialEffect()] *)
Definition init : SpecialEffect :=
  mkSpecialEffect ∅ ∅ [] ∅ None (mkStore [] []).

Definition set_heap (h : store) (se : SpecialEffect) : SpecialEffect :=
  mkSpecialEffect (lights se) (light_groups se) (effects se) (named_effects se)
    (_current_section se) h.

Definition set_current (c : option addr) (se : SpecialEffect) : SpecialEffect :=
  mkSpecialEffect (lights se) (light_groups se) (effects se) (named_effects se)
    c (heap se).

Definition set_effects (l : list effect_ref) (se : SpecialEffect) : SpecialEffect :=
  mkSpecialEffect (lights se) (light_groups se) l (named_effects se)
    (_current_section se) (heap se).

Definition set_named (n : gmap string addr) (se : SpecialEffect) : SpecialEffect :=
  mkSpecialEffect (lights se) (light_groups se) (effects se) n
    (_current_section se) (heap se).

(** The named section that [section(name=...)] finds registered, if any:
    [name and name in self.named_effects]. *)
Definition registered (se : SpecialEffect) (name : option string) : option section_obj :=
  match name with
  | Some n =>
      if name_truthy name then
        match named_effects se !! n with
        | Some a => sections (heap se) !! a
        | None => None
        end
      else None
  | None => None
  end.

(** [section], up to its [yield]: the new [Section] object is created and
    made current. The value is the pair [(new_section, previous_section)]
    that the generator keeps across the [yield]. *)
Definition section_enter (name : option string) (parallel : option bool)
    (repeat : option Z) (se : SpecialEffect)
  : SpecialEffect * (addr * option addr) :=
  let '(new_section, se1) :=
    match registered se name with
    | Some old =>
        let '(a, h) :=
          alloc_section
            (mkSection (sec_effects old)
               (match parallel with Some p => p | None => sec_parallel old end)
               repeat name)
            (heap se) in
        (a, set_heap h se)
    | None =>
        let '(l, h1) := alloc_list [] (heap se) in
        let '(a, h2) :=
          alloc_section
            (mkSection l (match parallel with Some p => p | None => false end)
               repeat name)
            h1 in
        (a, if name_truthy name then
              match name with
              | Some n => set_named (<[n := a]> (named_effects se)) (set_heap h2 se)
              | None => set_heap h2 se
              end
            else set_heap h2 se)
    end in
  let previous_section := _current_section se1 in
  (set_current (Some new_section) se1, (new_section, previous_section)).

(** [section], after its [yield]. *)
Definition section_exit (frame : addr * option addr) (se : SpecialEffect)
  : SpecialEffect :=
  let '(new_section, previous_section) := frame in
  let se1 := set_current previous_section se in
  match previous_section with
  | Some p =>
      match sections (heap se1) !! p with
      | Some prev =>
          if contains (default [] (lists (heap se1) !! sec_effects prev)) new_section
          then se1
          else set_heap (list_append (sec_effects prev) (RSection new_section)
                           (heap se1)) se1
      | None => se1
      end
  | None =>
      if contains (effects se1) new_section then se1
      else set_effects (effects se1 ++ [RSection new_section]) se1
  end.

(** [with self.section(name, parallel, repeat): body] *)
Definition section (name : option string) (parallel : option bool)
    (repeat : option Z) (body : SpecialEffect -> SpecialEffect)
    (se : SpecialEffect) : SpecialEffect :=
  let '(se1, frame) := section_enter name parallel repeat se in
  section_exit frame (body se1).

Definition _add_effect (effect : leaf) (se : SpecialEffect) : SpecialEffect :=
  match _current_section se with
  | Some c =>
      match sections (heap se) !! c with
      | Some cur => set_heap (list_append (sec_effects cur) (RLeaf effect) (heap se)) se
      | None => se
      end
  | None => set_effects (effects se ++ [RLeaf effect]) se
  end.

Definition add_light (name : string) (light : device) (se : SpecialEffect)
  : SpecialEffect :=
  mkSpecialEffect (<[name := light]> (lights se)) (light_groups se) (effects se)
    (named_effects se) (_current_section se) (heap se).

(** [[self.lights[ln] for ln in light_names if ln in self.lights]] *)
Definition add_light_group (name : string) (light_names : list string)
    (se : SpecialEffect) : SpecialEffect :=
  mkSpecialEffect (lights se)
    (<[name := omap (fun ln => lights se !! ln) light_names]> (light_groups se))
    (effects se) (named_effects se) (_current_section se) (heap se).

Definition _create_light_effect (name : string) (action : LightAction)
    (se : SpecialEffect) : SpecialEffect :=
  _add_effect (LightEffect (LightActionClosure name action) (Some 1%Z)) se.

Definition add_light_on (name : string) : SpecialEffect -> SpecialEffect :=
  _create_light_effect name TURN_ON.

Definition add_light_off (name : string) : SpecialEffect -> SpecialEffect :=
  _create_light_effect name TURN_OFF.

Definition add_light_color (name : string) (color : Easing.color)
    (se : SpecialEffect) : SpecialEffect :=
  _add_effect (LightEffect (LightColorClosure name color) (Some 1%Z)) se.

Definition add_light_color_transition (name : string)
    (start_color end_color : Easing.color) (duration : R) (easing_type : string)
    (se : SpecialEffect) : SpecialEffect :=
  _add_effect
    (LightEffect
       (ColorTransitionClosure name start_color end_color duration easing_type)
       (Some 1%Z)) se.

Definition add_sound (sound_file : string) (p : option player)
    (se : SpecialEffect) : SpecialEffect :=
  let p := match p with None => DefaultPlayer | Some p => p end in
  _add_effect (SoundEffect sound_file p (Some 1%Z)) se.

Definition add_delay (seconds : R) (se : SpecialEffect) : SpecialEffect :=
  _add_effect (LightEffect (DelayClosure seconds) (Some 1%Z)) se.

(** [add_custom(func, *args, **kwargs)]: the signature has no [repeat]
    parameter, so a [repeat=...] keyword lands in [kwargs]. *)
Definition add_custom (func : string) (args : list pyarg)
    (kwargs : list (string * pyarg)) (se : SpecialEffect) : SpecialEffect :=
  _add_effect (CustomEffect func args kwargs) se.

(** ** Observations on logs *)

(** The device calls of a log entry, with those of the branches of a
    [gather]. *)
Fixpoint calls (e : event) : list (device * string * list R) :=
  match e with
  | EvCall light method args => [(light, method, args)]
  | EvGather branches => flat_map (flat_map calls) branches
  | _ => []
  end.

Definition device_calls (l : list event) : list (device * string * list R) :=
  flat_map calls l.

(** The body of the [async for] in [add_light_color_transition]: one
    [set_color] per target, gathered. *)
Definition send_color (targets : list device) (color : Z * Z * Z) : M unit :=
  (gather (map (fun light => call light "set_color" (color_args color)) targets) ;;
   ret tt)%async.

(** ** Programs over the builder *)

(** [builds se se']: the state [se'] is reached from [se] by calls of the
    builder, [with] blocks included ([section_enter], a program for the
    body, [section_exit]). Every [add_*] that queues an effect is
    [_add_effect] of the leaf it constructs. *)
Inductive builds : SpecialEffect -> SpecialEffect -> Prop :=
| builds_done se : builds se se
| builds_add_effect se se' l :
    builds se se' -> builds se (_add_effect l se')
| builds_add_light se se' name light :
    builds se se' -> builds se (add_light name light se')
| builds_add_light_group se se' name light_names :
    builds se se' -> builds se (add_light_group name light_names se')
| builds_section se se' name parallel repeat se1 frame se2 :
    builds se se' ->
    section_enter name parallel repeat se' = (se1, frame) ->
    builds se1 se2 ->
    builds se (section_exit frame se2).


(** The [Section] object at [a] is in no list: [a in l] is false for the
    top-level list and for every list of the store. *)
Definition unlinked (a : addr) (se : SpecialEffect) : Prop :=
  contains (effects se) a = false /\
  Forall (fun l => contains l a = false) (lists (heap se)).

(** [se'] holds all that [se] holds, in place: the top-level list, the
    [Section] objects and every list of [se] are still there, the lists at
    most longer at their end. *)
Definition extends (se se' : SpecialEffect) : Prop :=
  effects se `prefix_of` effects se' /\
  sections (heap se) `prefix_of` sections (heap se') /\
  forall i l, lists (heap se) !! i = Some l ->
              exists l', lists (heap se') !! i = Some l' /\ l `prefix_of` l'.

(** [for leaf in leaves: self._add_effect(leaf)] *)
Definition add_all (leaves : list leaf) (se : SpecialEffect) : SpecialEffect :=
  fold_left (fun acc l => _add_effect l acc) leaves se.

(** Every registered name is a true value and names an allocated
    [Section]. *)
Definition registry_ok (se : SpecialEffect) : Prop :=
  forall n a, named_effects se !! n = Some a ->
              name_truthy (Some n) = true /\ a < length (sections (heap se)).

(** The child [c], run from any state, returns and appends the log [l]. *)
Definition appends (fuel : nat) (se : SpecialEffect) (c : effect_ref)
    (l : list event) : Prop :=
  forall st, exists st', run fuel se c st = (Ok VNone, st') /\ log st' = log st ++ l.

(** ** Effect trees used in the statements below *)

(** A bounded section that holds an unbounded section strobing a lamp:
<<
    se.add_light("lamp", bulb)
    with se.section(repeat=1):
        with se.section(repeat=None):
            se.add_light_on("lamp")
>> *)
Definition strobe_show : SpecialEffect :=
  section None None (Some 1%Z)
    (section None None None (add_light_on "lamp"))
    (add_light "lamp" (Device 0) init).

(** The named section [name] opened twice, one effect added in each scope:
<<
    with se.section(name=name): se._add_effect(first)
    with se.section(name=name): se._add_effect(second)
>> *)
Definition reopened_show (name : string) (first second : leaf) : SpecialEffect :=
  section (Some name) None (Some 1%Z) (_add_effect second)
    (section (Some name) None (Some 1%Z) (_add_effect first) init).

(** A sound, then a colour transition with an easing name that easing.py
    does not define. *)
Definition bounce_show : SpecialEffect :=
  add_light_color_transition "lamp" (0, 0, 0)%R (120, 100, 100)%R 2%R "bounce"
    (add_sound "intro.wav" None (add_light "lamp" (Device 0) init)).

(** Two sounds in a sequential section repeated three times:
<<
    with se.section(repeat=3):
        se.add_sound("tick.wav"); se.add_sound("tock.wav")
>> *)
Definition tick_tock_show : SpecialEffect :=
  section None None (Some 3%Z)
    (fun se => add_sound "tock.wav" None (add_sound "tick.wav" None se)) init.

(** A section built with [repeat=0] around one sound. *)
Definition silent_show : SpecialEffect :=
  section None None (Some 0%Z) (add_sound "intro.wav" None) init.

(** ** The specification's reading of [interpolate_color]

    Written from the words of the specification, in rational arithmetic:
    the number a float stands for, the truncation of a number to an integer,
    and the remainder of a number modulo 360. The binary64 definitions taken
    from easing.py are compared with these. *)

Module Spec.
(** The number that a finite float stands for. *)
Definition exact (x : spec_float) : option Q :=
  match x with
  | S754_zero _ => Some 0%Q
  | S754_finite s m e =>
      Some match e with
           | Zneg k => (cond_Zopp s (Zpos m) # 2 ^ k)%Q
           | _ => inject_Z (cond_Zopp s (Zpos m) * 2 ^ e)
           end
  | _ => None
  end.

(** Truncation towards zero. *)
Definition truncate (q : Q) : Z := if Qle_bool 0 q then Qfloor q else Qceiling q.

(** The remainder of the division by 360 with truncated quotient. *)
Definition remainder (q : Q) : Q := (q - 360 * inject_Z (truncate (q / 360)))%Q.
End Spec.

(** * Properties *)

(** ** Easing and interpolation *)

Section EasingFacts.
Import PyNum Easing.
Local Open Scope R_scope.

Lemma Int_part_IZR (z : Z) : Int_part (IZR z) = z.
Proof.
  symmetry. apply Int_part_spec. split; [lra | apply Rle_refl].
Qed.

Lemma py_int_IZR (z : Z) : py_int (IZR z) = z.
Proof.
  unfold py_int. destruct (Rle_dec 0 (IZR z)) as [_ | Hneg].
  - apply Int_part_IZR.
  - rewrite <- opp_IZR, Int_part_IZR. lia.
Qed.

Lemma py_mod_self (m : R) : m <> 0 -> py_mod m m = 0.
Proof.
  intros Hm. unfold py_mod.
  replace (m / m) with (IZR 1) by (field; exact Hm).
  rewrite Int_part_IZR. lra.
Qed.

Lemma quadratic_in_out_ends : quadratic_in_out 0 = 0 /\ quadratic_in_out 1 = 1.
Proof.
  unfold quadratic_in_out. split.
  - destruct (Rlt_dec 0 (1 / 2)); lra.
  - destruct (Rlt_dec 1 (1 / 2)); lra.
Qed.

Lemma cubic_in_out_ends : cubic_in_out 0 = 0 /\ cubic_in_out 1 = 1.
Proof.
  unfold cubic_in_out. split.
  - destruct (Rlt_dec 0 (1 / 2)); lra.
  - destruct (Rlt_dec 1 (1 / 2)); lra.
Qed.

Lemma sine_in_ends : sine_in 0 = 0 /\ sine_in 1 = 1.
Proof.
  unfold sine_in. split.
  - replace (0 * PI / 2) with 0 by lra. rewrite cos_0. lra.
  - replace (1 * PI / 2) with (PI / 2) by lra. rewrite cos_PI2. lra.
Qed.

Lemma sine_out_ends : sine_out 0 = 0 /\ sine_out 1 = 1.
Proof.
  unfold sine_out. split.
  - replace (0 * PI / 2) with 0 by lra. apply sin_0.
  - replace (1 * PI / 2) with (PI / 2) by lra. apply sin_PI2.
Qed.

Lemma sine_in_out_ends : sine_in_out 0 = 0 /\ sine_in_out 1 = 1.
Proof.
  unfold sine_in_out. split.
  - rewrite Rmult_0_r, cos_0. lra.
  - rewrite Rmult_1_r, cos_PI. lra.
Qed.

(** Every name of [easing_functions] is bound to that function in the
    module's globals. *)
Lemma easing_functions_in_globals :
  Forall (fun nf => getitem globals (fst nf) = Some (PyEasing (snd nf)))
         easing_functions.
Proof. repeat constructor. Qed.

(** C8: every easing function of easing.py maps 0 to 0 and 1 to 1, and
    [linear] is the identity. Floats are read as reals, where the
    equalities are exact. *)
Theorem easing_endpoints :
  (forall t, linear t = t) /\
  Forall (fun nf => snd nf 0 = 0 /\ snd nf 1 = 1) easing_functions.
Proof.
  split; [reflexivity |].
  unfold easing_functions.
  repeat apply List.Forall_cons; try apply List.Forall_nil; cbn [snd].
  - unfold linear. split; reflexivity.
  - unfold quadratic_in. split; lra.
  - unfold quadratic_out. split; lra.
  - apply quadratic_in_out_ends.
  - unfold cubic_in. split; lra.
  - unfold cubic_out. split; lra.
  - apply cubic_in_out_ends.
  - apply sine_in_ends.
  - apply sine_out_ends.
  - apply sine_in_out_ends.
Qed.
End EasingFacts.

(** ** The monad of awaitables *)

Section MonadFacts.
Context {A B : Type}.

Lemma bind_ok_inv (m : M A) (k : A -> M B) st b st' :
  bind m k st = (Ok b, st') ->
  exists a st1, m st = (Ok a, st1) /\ k a st1 = (Ok b, st').
Proof.
  unfold bind. destruct (m st) as [[a | e |] st1]; intros H; try discriminate.
  exists a, st1. split; [reflexivity | exact H].
Qed.

Lemma bind_ok (m : M A) (k : A -> M B) st a st1 :
  m st = (Ok a, st1) -> bind m k st = k a st1.
Proof. unfold bind. intros ->. reflexivity. Qed.

Lemma bind_raise (m : M A) (k : A -> M B) st e st1 :
  m st = (Raise e, st1) -> bind m k st = (Raise e, st1).
Proof. unfold bind. intros ->. reflexivity. Qed.

Lemma bind_ext (m : M A) (k k' : A -> M B) st :
  (forall a st1, k a st1 = k' a st1) -> bind m k st = bind m k' st.
Proof.
  intros Hk. unfold bind. destruct (m st) as [[a | e |] st1]; auto.
Qed.

Lemma bind_assoc {C} (m : M A) (k : A -> M B) (h : B -> M C) st :
  bind (bind m k) h st = bind m (fun a => bind (k a) h) st.
Proof. unfold bind. destruct (m st) as [[a | e |] st1]; reflexivity. Qed.
End MonadFacts.

(** An awaitable that ends by returning the constant [b] returns [b]. *)
Lemma then_ret_value {A B} (m : M A) (b : B) st v st' :
  (m ;; ret b)%async st = (Ok v, st') -> v = b.
Proof.
  intros H. apply bind_ok_inv in H as (a & st1 & _ & H).
  unfold ret in H. congruence.
Qed.

Lemma then_ret_ok {A B} (m : M A) (b : B) st a st1 :
  m st = (Ok a, st1) -> (m ;; ret b)%async st = (Ok b, st1).
Proof. intros H. unfold bind. rewrite H. reflexivity. Qed.

Lemma then_ret_snd {A B} (m : M A) (b : B) st :
  snd ((m ;; ret b)%async st) = snd (m st).
Proof. unfold bind. destruct (m st) as [[a | e |] st1]; reflexivity. Qed.

Lemma then_ret_raise {A B} (m : M A) (b : B) st e :
  fst ((m ;; ret b)%async st) = Raise e -> fst (m st) = Raise e.
Proof.
  unfold bind. destruct (m st) as [[a | e' |] st1]; cbn; congruence.
Qed.

(** The loop over [itertools.count()] is never left normally. *)
Lemma forever_not_ok fuel body st (u : unit) st' :
  forever fuel body st <> (Ok u, st').
Proof.
  revert st. induction fuel as [| fuel IH]; intros st H; cbn in H.
  - discriminate.
  - apply bind_ok_inv in H as (a & st1 & _ & H). exact (IH _ H).
Qed.

Lemma iterate_S_ok n body st st1 :
  body st = (Ok tt, st1) -> iterate (S n) body st = iterate n body st1.
Proof. intros H. cbn [iterate]. unfold bind. rewrite H. reflexivity. Qed.

Lemma iterate_zero (n : Z) body st :
  (n <= 0)%Z -> repeat_loop 0 (Some n) body st = (Ok tt, st).
Proof.
  intros Hn. unfold repeat_loop.
  replace (Z.to_nat n) with O by lia. reflexivity.
Qed.

Lemma repeat_loop_nonpositive fuel (n : Z) body st :
  (n <= 0)%Z -> repeat_loop fuel (Some n) body st = (Ok tt, st).
Proof. intros Hn. exact (iterate_zero n body st Hn). Qed.

(** ** run *)

Lemma run_RLeaf fuel se l : run fuel se (RLeaf l) = run_leaf fuel se l.
Proof. destruct fuel; reflexivity. Qed.

(** A [LightEffect] built with the default [repeat=1]. *)
Lemma run_light_once fuel se c st :
  run fuel se (RLeaf (LightEffect c (Some 1%Z))) st
  = ((call_closure fuel se c ;; ret tt) ;; ret VNone)%async st.
Proof. rewrite run_RLeaf. reflexivity. Qed.

(** [run] never evaluates to a task handle: every [run] method of the
    source falls off its end. *)
Lemma run_value_none fuel se e st v st' :
  run fuel se e st = (Ok v, st') -> v = VNone.
Proof.
  destruct e as [l | s].
  - rewrite run_RLeaf. destruct l; cbn [run_leaf]; apply then_ret_value.
  - destruct fuel as [| fuel]; cbn [run]; [discriminate |].
    destruct (sections (heap se) !! s) as [sec |]; [| discriminate].
    apply then_ret_value.
Qed.

(** The [run] of a section with unbounded repeat does not return. *)
Lemma unbounded_section_not_ok fuel se s sec st v st' :
  sections (heap se) !! s = Some sec ->
  sec_repeat sec = None ->
  run fuel se (RSection s) st <> (Ok v, st').
Proof.
  intros Hs Hr H. destruct fuel as [| fuel]; cbn in H; [discriminate |].
  rewrite Hs, Hr in H. cbn in H.
  apply bind_ok_inv in H as ([] & st1 & H & _).
  exact (forever_not_ok _ _ _ _ _ H).
Qed.

(** For a child whose own [run] returns, [_run_effect] is that [run]. *)
Lemma _run_effect_inline fuel se child st v st' :
  run fuel se child st = (Ok v, st') ->
  _run_effect (run fuel se) (heap se) child = run fuel se child.
Proof.
  intros H. destruct child as [l | s]; [reflexivity |]. cbn [_run_effect].
  destruct (sections (heap se) !! s) as [sec |] eqn:Hs; [| reflexivity].
  destruct (sec_repeat sec) eqn:Hr; [reflexivity |].
  exfalso. exact (unbounded_section_not_ok _ _ _ _ _ _ _ Hs Hr H).
Qed.

(** [run] reads the registries and the store, not the top-level list. *)
Lemma run_set_effects fuel l se : run fuel (set_effects l se) = run fuel se.
Proof.
  induction fuel as [| fuel IH]; cbn.
  - reflexivity.
  - rewrite IH. reflexivity.
Qed.

(** ** play *)

Lemma play_loop_app fuel se xs ys acc st :
  play_loop fuel se (xs ++ ys) acc st
  = (acc' <- play_loop fuel se xs acc ;; play_loop fuel se ys acc')%async st.
Proof.
  revert acc st. induction xs as [| x xs IH]; intros acc st; cbn.
  - reflexivity.
  - rewrite bind_assoc. apply bind_ext. intros v st1. apply IH.
Qed.

(** [_play_async] never finds a task handle to collect. *)
Lemma play_loop_collects_nothing fuel se todo acc st r st' :
  play_loop fuel se todo acc st = (Ok r, st') -> r = acc.
Proof.
  revert acc st. induction todo as [| e todo IH]; intros acc st H; cbn in H.
  - unfold ret in H. congruence.
  - apply bind_ok_inv in H as (v & st1 & Hrun & H).
    apply run_value_none in Hrun. subst v. exact (IH _ _ H).
Qed.

(** ** Background tasks *)

(** X16: whatever the tree, when the loop of [_play_async] is through,
    [play] returns at once: there is no handle to await. *)
Lemma _play_async_awaits_nothing fuel se st collected st' :
  play_loop fuel se (effects se) [] st = (Ok collected, st') ->
  _play_async fuel se st = (Ok tt, st').
Proof.
  intros H. unfold _play_async. rewrite (bind_ok _ _ _ _ _ H).
  apply play_loop_collects_nothing in H. subst collected. reflexivity.
Qed.

(** C1: on [strobe_show] (a bounded section holding an unbounded one),
    the parent's [run] returns after creating the task for the child, and
    [play] then reports completion with that task created but neither
    collected nor awaited: the handle that [_run_effect] returns is dropped
    by [Section.run]. *)
Theorem play_drops_background_handle (fuel : nat) :
  effects strobe_show = [RSection 0] /\
  sections (heap strobe_show)
  = [mkSection 0 false (Some 1%Z) None; mkSection 1 false None None] /\
  lists (heap strobe_show) !! 0 = Some [RSection 1] /\
  exists st,
    run (S fuel) strobe_show (RSection 0) fresh_loop = (Ok VNone, st) /\
    play_loop (S fuel) strobe_show (effects strobe_show) [] fresh_loop = (Ok [], st) /\
    play (S fuel) strobe_show = (Ok tt, st) /\
    log st = [EvCreateTask 0 1; EvSleep 0] /\
    tasks st = [1].
Proof.
  repeat split; try reflexivity.
  eexists. repeat split; reflexivity.
Qed.

(** ** Named sections *)

Lemma first_open (name : string) (first : leaf) :
  name_truthy (Some name) = true ->
  section (Some name) None (Some 1%Z) (_add_effect first) init
  = mkSpecialEffect ∅ ∅ [RSection 0] (<[name := 0]> ∅) None
      (mkStore [mkSection 0 false (Some 1%Z) (Some name)] [[RLeaf first]]).
Proof.
  intros Hname. unfold section, section_enter, registered. rewrite Hname.
  unfold init at 1. cbn [named_effects]. rewrite lookup_empty. reflexivity.
Qed.

(** C2: opening [section(name=...)] twice, adding one effect in each
    scope, leaves two distinct [Section] objects (addresses 0 and 1) both
    linked at top level; they share the one list holding both effects in
    addition order, and the registry still names the first object. *)
Theorem reopened_section_is_linked_twice (c : Ascii.ascii) (rest : string)
    (first second : leaf) :
  let name := String c rest in
  let se := reopened_show name first second in
  effects se = [RSection 0; RSection 1] /\
  sections (heap se)
  = [mkSection 0 false (Some 1%Z) (Some name);
     mkSection 0 false (Some 1%Z) (Some name)] /\
  lists (heap se) = [[RLeaf first; RLeaf second]] /\
  named_effects se !! name = Some 0.
Proof.
  intros name se. subst se. unfold reopened_show.
  rewrite first_open by reflexivity.
  unfold section, section_enter, registered.
  cbn [name_truthy name named_effects]. rewrite lookup_insert_eq.
  cbn. repeat split. apply lookup_insert_eq.
Qed.

(** ** Custom effects *)

(** C9: [add_custom] wraps exactly the callable and the arguments it was
    given; running the effect calls the callable once with them, also when
    the keywords hold a [repeat] entry. *)
Theorem add_custom_forwards_arguments (func : string) (args : list pyarg)
    (kwargs : list (string * pyarg)) :
  (forall se, add_custom func args kwargs se
              = _add_effect (CustomEffect func args kwargs) se) /\
  (forall fuel se st,
      run fuel se (RLeaf (CustomEffect func args kwargs)) st
      = (Ok VNone,
         mkLoop (time st) (log st ++ [EvThread func args kwargs]) (tasks st))) /\
  (forall fuel,
      effects (add_custom func args kwargs init)
      = [RLeaf (CustomEffect func args kwargs)] /\
      exists st,
        play fuel (add_custom func args kwargs init) = (Ok tt, st) /\
        log st = [EvThread func args kwargs]) /\
  (forall fuel v,
      exists st,
        play fuel (add_custom func args (("repeat", v) :: kwargs) init) = (Ok tt, st) /\
        log st = [EvThread func args (("repeat", v) :: kwargs)]).
Proof.
  repeat split.
  - intros fuel se st. rewrite run_RLeaf. reflexivity.
  - eexists. unfold play, _play_async, add_custom. cbn [_add_effect init _current_section effects set_effects app play_loop].
    rewrite bind_assoc. unfold bind at 1. rewrite run_RLeaf. cbn. split; reflexivity.
  - intros fuel v. eexists. unfold play, _play_async, add_custom. cbn [_add_effect init _current_section effects set_effects app play_loop].
    rewrite bind_assoc. unfold bind at 1. rewrite run_RLeaf. cbn. split; reflexivity.
Qed.

(** ** Target resolution *)

Lemma _get_targets_missing se name st :
  lights se !! name = None ->
  light_groups se !! name = None ->
  _get_targets se name st = (Raise (ValueError (not_found name)), st).
Proof.
  intros Hl Hg. unfold _get_targets, lights_get, light_groups_get.
  rewrite Hl, Hg. reflexivity.
Qed.

Lemma _get_targets_empty_group se name st :
  lights se !! name = None ->
  light_groups se !! name = Some [] ->
  _get_targets se name st = (Ok [], st).
Proof.
  intros Hl Hg. unfold _get_targets, lights_get, light_groups_get.
  rewrite Hl, Hg. reflexivity.
Qed.

Lemma play_loop_set_effects fuel l se todo acc st :
  play_loop fuel (set_effects l se) todo acc st = play_loop fuel se todo acc st.
Proof.
  revert acc st. induction todo as [| e todo IH]; intros acc st; cbn [play_loop].
  - reflexivity.
  - rewrite run_set_effects. apply bind_ext. intros v st1. apply IH.
Qed.

(** C7: for a name in neither registry, [add_light_color] only appends the
    leaf; [play] then raises the error naming it when that leaf runs, after
    the effects before it have completed. *)
Theorem missing_target_raises_at_play se name color fuel collected st1 :
  lights se !! name = None ->
  light_groups se !! name = None ->
  _current_section se = None ->
  play_loop fuel se (effects se) [] fresh_loop = (Ok collected, st1) ->
  effects (add_light_color name color se)
  = effects se ++ [RLeaf (LightEffect (LightColorClosure name color) (Some 1%Z))] /\
  play fuel (add_light_color name color se)
  = (Raise (ValueError ("Light or group '" ++ name ++ "' not found.")%string), st1).
Proof.
  intros Hl Hg Hcur Hprefix.
  unfold add_light_color, _add_effect. rewrite Hcur.
  split; [reflexivity |].
  unfold play, _play_async. cbn [effects set_effects].
  apply bind_raise.
  rewrite play_loop_set_effects, play_loop_app.
  rewrite (bind_ok _ _ _ _ _ Hprefix). cbn [play_loop].
  apply bind_raise. rewrite run_light_once.
  destruct color as [[h s] v]. cbn [call_closure].
  do 3 apply bind_raise. apply _get_targets_missing; assumption.
Qed.

Lemma missing_target_raises_at_play_witness :
  let se := add_sound "intro.wav" None (add_light "lamp" (Device 0) init) in
  exists st1,
    play_loop 0 se (effects se) [] fresh_loop = (Ok [], st1) /\
    play 0 (add_light_color "missing_name" (0, 0, 0)%R se)
    = (Raise (ValueError "Light or group 'missing_name' not found."), st1).
Proof.
  eexists. split; [reflexivity |].
  apply (missing_target_raises_at_play
           (add_sound "intro.wav" None (add_light "lamp" (Device 0) init))
           "missing_name" (0, 0, 0)%R 0 []); reflexivity.
Defined.

Lemma omap_all_unregistered (registry : gmap string device) (light_names : list string) :
  (forall ln, In ln light_names -> registry !! ln = None) ->
  omap (fun ln => registry !! ln) light_names = [].
Proof.
  induction light_names as [| ln rest IH]; intros Hall; cbn.
  - reflexivity.
  - rewrite (Hall ln) by (left; reflexivity).
    apply IH. intros ln' Hin. apply Hall. right. exact Hin.
Qed.

Lemma device_calls_app l1 l2 :
  device_calls (l1 ++ l2) = device_calls l1 ++ device_calls l2.
Proof. unfold device_calls. apply flat_map_app. Qed.

(** With no target, the sampling loop of a colour transition sends no
    device call and raises no [ValueError]. *)
Lemma sample_loop_no_target fuel easing_function start_color end_color
    duration start_time st :
  let out :=
    sample_loop fuel easing_function start_color end_color duration start_time
      (fun color =>
         (gather (map (fun light => call light "set_color" (color_args color)) []) ;;
          ret tt)%async) st in
  device_calls (log (snd out)) = device_calls (log st) /\
  forall msg, fst out <> Raise (ValueError msg).
Proof.
  revert st. induction fuel as [| fuel IH]; intros st; cbn.
  - split; [reflexivity | discriminate].
  - destruct (Req_dec_T duration 0) as [_ | _]; cbn.
    + split; [reflexivity | discriminate].
    + destruct (Rge_dec ((time st - start_time) / duration) 1) as [_ | _]; cbn.
      * split; [reflexivity | discriminate].
      * destruct easing_function as [n | f | n | n]; cbn;
          try (split; [reflexivity | discriminate]).
        match goal with
        | |- context [sample_loop fuel ?ef ?s ?e ?d ?t ?b ?st2] =>
            specialize (IH st2); cbn in IH; destruct IH as [IHlog IHr]
        end.
        split; [| exact IHr].
        rewrite IHlog. cbn [log].
        rewrite !device_calls_app. cbn. rewrite !app_nil_r. reflexivity.
Qed.

(** C10: a group formed from names that are all unregistered is the empty
    list, an effect addressed to it (and to no light of the same name)
    resolves to no target: switching and colouring effects complete with
    nothing sent, and a colour transition sends no device call and raises no
    target error. *)
Theorem empty_group_resolves_to_no_targets se name light_names :
  (forall ln, In ln light_names -> lights se !! ln = None) ->
  lights se !! name = None ->
  let se' := add_light_group name light_names se in
  light_groups se' !! name = Some [] /\
  (forall st, _get_targets se' name st = (Ok [], st)) /\
  (forall fuel action st,
      run fuel se' (RLeaf (LightEffect (LightActionClosure name action) (Some 1%Z))) st
      = (Ok VNone, st)) /\
  (forall fuel color st,
      run fuel se' (RLeaf (LightEffect (LightColorClosure name color) (Some 1%Z))) st
      = (Ok VNone, st)) /\
  (forall fuel start_color end_color duration easing_type st,
      let out :=
        run fuel se'
          (RLeaf (LightEffect
                    (ColorTransitionClosure name start_color end_color duration
                       easing_type) (Some 1%Z))) st in
      device_calls (log (snd out)) = device_calls (log st) /\
      forall msg, fst out <> Raise (ValueError msg)).
Proof.
  intros Hall Hname se'.
  assert (Hgroup : light_groups se' !! name = Some []).
  { subst se'. unfold add_light_group. cbn [light_groups].
    rewrite lookup_insert_eq, omap_all_unregistered by exact Hall. reflexivity. }
  assert (Htargets : forall st, _get_targets se' name st = (Ok [], st)).
  { intros st. apply _get_targets_empty_group; [exact Hname | exact Hgroup]. }
  split; [exact Hgroup |]. split; [exact Htargets |].
  split; [| split].
  - intros fuel action st. rewrite run_light_once. cbn [call_closure].
    rewrite !bind_assoc, (bind_ok _ _ _ _ _ (Htargets st)). reflexivity.
  - intros fuel [[h s] v] st. rewrite run_light_once. cbn [call_closure].
    rewrite !bind_assoc, (bind_ok _ _ _ _ _ (Htargets st)). reflexivity.
  - intros fuel start_color end_color duration easing_type st out. subst out.
    rewrite run_light_once. cbn [call_closure].
    rewrite !then_ret_snd. split.
    + rewrite (bind_ok _ _ _ _ _ (Htargets st)).
      unfold interpolate_color_over_time.
      destruct (Easing.getitem Easing.globals easing_type) as [easing_function |];
        [| reflexivity].
      apply (sample_loop_no_target fuel easing_function start_color end_color
               duration (time st) st).
    + intros msg Hraise. do 2 apply then_ret_raise in Hraise.
      rewrite (bind_ok _ _ _ _ _ (Htargets st)) in Hraise.
      unfold interpolate_color_over_time in Hraise.
      destruct (Easing.getitem Easing.globals easing_type) as [easing_function |];
        [| discriminate].
      exact (proj2 (sample_loop_no_target fuel easing_function start_color
                      end_color duration (time st) st) msg Hraise).
Qed.

Lemma empty_group_resolves_to_no_targets_witness :
  let se' := add_light_group "porch" ["left"; "right"]
               (add_light "lamp" (Device 0) init) in
  light_groups se' !! "porch" = Some [] /\
  run 0 se' (RLeaf (LightEffect (LightActionClosure "porch" TURN_ON) (Some 1%Z)))
    fresh_loop
  = (Ok VNone, fresh_loop).
Proof.
  destruct (empty_group_resolves_to_no_targets
              (add_light "lamp" (Device 0) init) "porch" ["left"; "right"])
    as (Hgroup & _ & Haction & _).
  - intros ln [<- | [<- | []]]; reflexivity.
  - reflexivity.
  - split; [exact Hgroup | apply Haction].
Defined.

(** ** Sequential sections *)

(** One iteration of a sequential section over two children whose [run]
    returns. *)
Lemma sequential_pass fuel se c1 c2 st0 v1 st1 v2 st2 :
  run fuel se c1 st0 = (Ok v1, st1) ->
  run fuel se c2 st1 = (Ok v2, st2) ->
  for_each [c1; c2]
    (fun effect => (_run_effect (run fuel se) (heap se) effect ;; ret tt)%async) st0
  = (Ok tt, st2).
Proof.
  intros H1 H2. cbn [for_each].
  rewrite (_run_effect_inline _ _ _ _ _ _ H1), (_run_effect_inline _ _ _ _ _ _ H2).
  rewrite bind_assoc, (bind_ok _ _ _ _ _ H1). cbn [ret].
  rewrite (bind_ok _ _ _ _ _ (eq_refl : ret tt st1 = (Ok tt, st1))).
  rewrite bind_assoc, (bind_ok _ _ _ _ _ H2). reflexivity.
Qed.

Lemma run_sequential_three fuel se s sec children st :
  sections (heap se) !! s = Some sec ->
  sec_repeat sec = Some 3%Z ->
  sec_parallel sec = false ->
  lists (heap se) !! sec_effects sec = Some children ->
  run (S fuel) se (RSection s) st
  = (iterate 3
       (for_each children
          (fun effect => _run_effect (run fuel se) (heap se) effect ;; ret tt)) ;;
     ret VNone)%async st.
Proof.
  intros Hs Hr Hp Hl. cbn [run]. rewrite Hs, Hr, Hp, Hl. reflexivity.
Qed.

(** C6: a sequential section with [repeat = 3] and the two children
    [c1; c2] runs c1, c2, c1, c2, c1, c2: each run starts in the state in
    which the run before it returned, and the section returns in the state
    of the sixth. When each child appends a fixed log, the section appends
    those logs in that order. *)
Theorem sequential_section_runs_children_three_times se s sec c1 c2 fuel :
  sections (heap se) !! s = Some sec ->
  sec_repeat sec = Some 3%Z ->
  sec_parallel sec = false ->
  lists (heap se) !! sec_effects sec = Some [c1; c2] ->
  (forall st0 st1 st2 st3 st4 st5 st6 v1 v2 v3 v4 v5 v6,
      run fuel se c1 st0 = (Ok v1, st1) ->
      run fuel se c2 st1 = (Ok v2, st2) ->
      run fuel se c1 st2 = (Ok v3, st3) ->
      run fuel se c2 st3 = (Ok v4, st4) ->
      run fuel se c1 st4 = (Ok v5, st5) ->
      run fuel se c2 st5 = (Ok v6, st6) ->
      run (S fuel) se (RSection s) st0 = (Ok VNone, st6)) /\
  (forall l1 l2,
      (forall st, exists v st', run fuel se c1 st = (Ok v, st') /\ log st' = log st ++ l1) ->
      (forall st, exists v st', run fuel se c2 st = (Ok v, st') /\ log st' = log st ++ l2) ->
      forall st, exists st',
        run (S fuel) se (RSection s) st = (Ok VNone, st') /\
        log st' = log st ++ (l1 ++ l2) ++ (l1 ++ l2) ++ (l1 ++ l2)).
Proof.
  intros Hs Hr Hp Hl.
  assert (Hchain : forall st0 st1 st2 st3 st4 st5 st6 v1 v2 v3 v4 v5 v6,
      run fuel se c1 st0 = (Ok v1, st1) ->
      run fuel se c2 st1 = (Ok v2, st2) ->
      run fuel se c1 st2 = (Ok v3, st3) ->
      run fuel se c2 st3 = (Ok v4, st4) ->
      run fuel se c1 st4 = (Ok v5, st5) ->
      run fuel se c2 st5 = (Ok v6, st6) ->
      run (S fuel) se (RSection s) st0 = (Ok VNone, st6)).
  { intros st0 st1 st2 st3 st4 st5 st6 v1 v2 v3 v4 v5 v6 H1 H2 H3 H4 H5 H6.
    rewrite (run_sequential_three _ _ _ _ _ _ Hs Hr Hp Hl).
    apply then_ret_ok with (a := tt).
    rewrite (iterate_S_ok _ _ _ _ (sequential_pass _ _ _ _ _ _ _ _ _ H1 H2)).
    rewrite (iterate_S_ok _ _ _ _ (sequential_pass _ _ _ _ _ _ _ _ _ H3 H4)).
    rewrite (iterate_S_ok _ _ _ _ (sequential_pass _ _ _ _ _ _ _ _ _ H5 H6)).
    reflexivity. }
  split; [exact Hchain |].
  intros l1 l2 Hc1 Hc2 st0.
  destruct (Hc1 st0) as (v1 & st1 & H1 & L1).
  destruct (Hc2 st1) as (v2 & st2 & H2 & L2).
  destruct (Hc1 st2) as (v3 & st3 & H3 & L3).
  destruct (Hc2 st3) as (v4 & st4 & H4 & L4).
  destruct (Hc1 st4) as (v5 & st5 & H5 & L5).
  destruct (Hc2 st5) as (v6 & st6 & H6 & L6).
  exists st6. split.
  - exact (Hchain _ _ _ _ _ _ _ _ _ _ _ _ _ H1 H2 H3 H4 H5 H6).
  - rewrite L6, L5, L4, L3, L2, L1. rewrite <- !app_assoc. reflexivity.
Qed.

Lemma sequential_section_runs_children_three_times_witness :
  exists st,
    run 1 tick_tock_show (RSection 0) fresh_loop = (Ok VNone, st) /\
    log st = [EvPlaySound DefaultPlayer "tick.wav"; EvPlaySound DefaultPlayer "tock.wav";
              EvPlaySound DefaultPlayer "tick.wav"; EvPlaySound DefaultPlayer "tock.wav";
              EvPlaySound DefaultPlayer "tick.wav"; EvPlaySound DefaultPlayer "tock.wav"].
Proof.
  destruct (sequential_section_runs_children_three_times tick_tock_show 0
              (mkSection 0 false (Some 3%Z) None)
              (RLeaf (SoundEffect "tick.wav" DefaultPlayer (Some 1%Z)))
              (RLeaf (SoundEffect "tock.wav" DefaultPlayer (Some 1%Z)))
              0 eq_refl eq_refl eq_refl eq_refl) as [_ Hlogs].
  destruct (Hlogs [EvPlaySound DefaultPlayer "tick.wav"]
                  [EvPlaySound DefaultPlayer "tock.wav"]) with (st := fresh_loop)
    as (st & Hrun & Hlog).
  - intros st. eexists _, _. split; reflexivity.
  - intros st. eexists _, _. split; reflexivity.
  - exists st. split; [exact Hrun | exact Hlog].
Defined.

(** ** Repeat counts *)

(** C3, as stated, fails: a leaf can be built with [repeat = 0], and
    [section(repeat=0)] builds a section that [play] runs to completion
    without running its sound. *)
Lemma nonpositive_repeat_is_accepted :
  ~ (forall l r, leaf_repeat l = Some r -> (1 <= r)%Z) /\
  sections (heap silent_show) = [mkSection 0 false (Some 0%Z) None] /\
  lists (heap silent_show)
  = [[RLeaf (SoundEffect "intro.wav" DefaultPlayer (Some 1%Z))]] /\
  exists st, play 1 silent_show = (Ok tt, st) /\ log st = [].
Proof.
  split; [| split; [| split]].
  - intros Hvalid.
    specialize (Hvalid (SoundEffect "intro.wav" DefaultPlayer (Some 0%Z)) 0%Z eq_refl).
    lia.
  - reflexivity.
  - reflexivity.
  - eexists. split; reflexivity.
Qed.

(** C3, amended: the constructors store any [repeat] unchanged, and an
    effect or section whose [repeat] is zero or negative completes at once
    without performing its action. *)
Theorem nonpositive_repeat_runs_nothing (r : Z) :
  (r <= 0)%Z ->
  (forall sound_file p, leaf_repeat (SoundEffect sound_file p (Some r)) = Some r) /\
  (forall effect, leaf_repeat (LightEffect effect (Some r)) = Some r) /\
  (forall name parallel se,
      let '(se1, (new_section, _)) := section_enter name parallel (Some r) se in
      exists sec, sections (heap se1) !! new_section = Some sec /\
                  sec_repeat sec = Some r) /\
  (forall fuel se sound_file p st,
      run fuel se (RLeaf (SoundEffect sound_file p (Some r))) st = (Ok VNone, st)) /\
  (forall fuel se effect st,
      run fuel se (RLeaf (LightEffect effect (Some r))) st = (Ok VNone, st)) /\
  (forall fuel se s sec st,
      sections (heap se) !! s = Some sec ->
      sec_repeat sec = Some r ->
      run (S fuel) se (RSection s) st = (Ok VNone, st)).
Proof.
  intros Hr. repeat split.
  - intros name parallel se. unfold section_enter.
    destruct (registered se name) as [old |]; cbn.
    + eexists. split; [apply list_lookup_middle; reflexivity | reflexivity].
    + destruct (name_truthy name); [destruct name |]; cbn;
        (eexists; split; [apply list_lookup_middle; reflexivity | reflexivity]).
  - intros fuel se sound_file p st. rewrite run_RLeaf. cbn [run_leaf].
    apply then_ret_ok with (a := tt). apply repeat_loop_nonpositive, Hr.
  - intros fuel se effect st. rewrite run_RLeaf. cbn [run_leaf].
    apply then_ret_ok with (a := tt). apply repeat_loop_nonpositive, Hr.
  - intros fuel se s sec st Hs Hrep. cbn [run]. rewrite Hs, Hrep.
    apply then_ret_ok with (a := tt). apply repeat_loop_nonpositive, Hr.
Qed.

Lemma nonpositive_repeat_runs_nothing_witness :
  (-2 <= 0)%Z /\
  run 0 init (RLeaf (LightEffect (DelayClosure 5%R) (Some (-2)%Z))) fresh_loop
  = (Ok VNone, fresh_loop).
Proof.
  split; [lia |].
  destruct (nonpositive_repeat_runs_nothing (-2)%Z) as (_ & _ & _ & _ & Hlight & _).
  - lia.
  - apply Hlight.
Defined.

(** ** Easing names *)

Lemma _get_targets_cases se name st :
  (exists targets, _get_targets se name st = (Ok targets, st)) \/
  _get_targets se name st = (Raise (ValueError (not_found name)), st).
Proof.
  unfold _get_targets.
  destruct (py_or (lights_get se name) (light_groups_get se name)) as [| d | l].
  - right. reflexivity.
  - left. eexists. reflexivity.
  - left. eexists. reflexivity.
Qed.

(** C5, as stated, fails: with the easing name ["bounce"], which easing.py
    does not bind, [add_light_color_transition] appends the leaf, and [play]
    raises only after the sound before it has been played. *)
Lemma unknown_easing_fails_late :
  Easing.getitem Easing.globals "bounce" = None /\
  effects bounce_show
  = [RLeaf (SoundEffect "intro.wav" DefaultPlayer (Some 1%Z));
     RLeaf (LightEffect
              (ColorTransitionClosure "lamp" (0, 0, 0)%R (120, 100, 100)%R 2%R
                 "bounce") (Some 1%Z))] /\
  exists st,
    play 0 bounce_show = (Raise (KeyError "bounce"), st) /\
    log st = [EvPlaySound DefaultPlayer "intro.wav"].
Proof.
  split; [reflexivity |]. split; [reflexivity |].
  eexists. split; reflexivity.
Qed.

(** C5, amended: for an easing name that the easing module does not bind,
    [add_light_color_transition] only appends the leaf; the leaf, when it
    runs, raises without logging anything (no colour is computed with
    another easing), and what it raises is [KeyError] of that name once the
    target has resolved. *)
Theorem unknown_easing_raises_when_leaf_runs easing_type :
  Easing.getitem Easing.globals easing_type = None ->
  forall name start_color end_color duration se,
    let effect :=
      LightEffect
        (ColorTransitionClosure name start_color end_color duration easing_type)
        (Some 1%Z) in
    add_light_color_transition name start_color end_color duration easing_type se
    = _add_effect effect se /\
    (forall fuel st targets,
        _get_targets se name st = (Ok targets, st) ->
        run fuel se (RLeaf effect) st = (Raise (KeyError easing_type), st)) /\
    (forall fuel st, exists e, run fuel se (RLeaf effect) st = (Raise e, st)).
Proof.
  intros Hunknown name start_color end_color duration se effect.
  assert (Hkey : forall fuel st targets,
             _get_targets se name st = (Ok targets, st) ->
             run fuel se (RLeaf effect) st = (Raise (KeyError easing_type), st)).
  { intros fuel st targets Htargets. subst effect.
    rewrite run_light_once. cbn [call_closure].
    do 2 apply bind_raise. rewrite (bind_ok _ _ _ _ _ Htargets).
    unfold interpolate_color_over_time. rewrite Hunknown. reflexivity. }
  split; [reflexivity |]. split; [exact Hkey |].
  intros fuel st. destruct (_get_targets_cases se name st) as [[targets Hok] | Hmissing].
  - eexists. exact (Hkey fuel st targets Hok).
  - eexists. subst effect. rewrite run_light_once. cbn [call_closure].
    do 3 apply bind_raise. exact Hmissing.
Qed.

Lemma unknown_easing_raises_when_leaf_runs_witness :
  Easing.getitem Easing.globals "bounce" = None /\
  run 0 (add_light "lamp" (Device 0) init)
    (RLeaf (LightEffect
              (ColorTransitionClosure "lamp" (0, 0, 0)%R (120, 100, 100)%R 2%R
                 "bounce") (Some 1%Z))) fresh_loop
  = (Raise (KeyError "bounce"), fresh_loop).
Proof.
  split; [reflexivity |].
  destruct (unknown_easing_raises_when_leaf_runs "bounce" eq_refl "lamp"
              (0, 0, 0)%R (120, 100, 100)%R 2%R (add_light "lamp" (Device 0) init))
    as (_ & Hkey & _).
  apply (Hkey 0%nat fresh_loop [Device 0]). reflexivity.
Defined.

(** * Further properties *)

(** ** Shape of the easing curves *)

Section EasingShape.
Import PyNum Easing.
Local Open Scope R_scope.

Lemma cube_le (t u : R) : 0 <= t <= u -> t ^ 3 <= u ^ 3.
Proof.
  intros [Ht Htu].
  assert (H : 0 <= (u - t) * (u * u + u * t + t * t)).
  { apply Rmult_le_pos; [lra | nra]. }
  nra.
Qed.

Lemma half_turn (t : R) : 0 <= t <= 1 -> 0 <= t * PI / 2 <= PI / 2.
Proof. intros [H0 H1]. pose proof PI_RGT_0. split; nra. Qed.

Lemma quadratic_in_out_mono t u :
  0 <= t <= u -> u <= 1 -> quadratic_in_out t <= quadratic_in_out u.
Proof.
  intros [Ht Htu] Hu. unfold quadratic_in_out.
  destruct (Rlt_dec t (1 / 2)), (Rlt_dec u (1 / 2)); nra.
Qed.

Lemma cubic_in_out_mono t u :
  0 <= t <= u -> u <= 1 -> cubic_in_out t <= cubic_in_out u.
Proof.
  intros [Ht Htu] Hu. unfold cubic_in_out.
  destruct (Rlt_dec t (1 / 2)), (Rlt_dec u (1 / 2)).
  - pose proof (cube_le t u). lra.
  - assert (t ^ 3 <= (1 / 2) ^ 3) by (apply cube_le; lra).
    assert (0 <= -2 * u + 2 <= 1) as Hv by lra.
    assert ((-2 * u + 2) ^ 3 <= 1 ^ 3) by (apply cube_le; lra).
    lra.
  - lra.
  - assert ((-2 * u + 2) ^ 3 <= (-2 * t + 2) ^ 3) by (apply cube_le; lra).
    lra.
Qed.

Lemma sine_in_mono t u : 0 <= t <= u -> u <= 1 -> sine_in t <= sine_in u.
Proof.
  intros [Ht Htu] Hu. unfold sine_in.
  pose proof PI_RGT_0.
  assert (cos (u * PI / 2) <= cos (t * PI / 2)); [| lra].
  apply cos_decr_1; nra.
Qed.

Lemma sine_out_mono t u : 0 <= t <= u -> u <= 1 -> sine_out t <= sine_out u.
Proof.
  intros [Ht Htu] Hu. unfold sine_out.
  pose proof PI_RGT_0.
  apply sin_incr_1; nra.
Qed.

Lemma sine_in_out_mono t u :
  0 <= t <= u -> u <= 1 -> sine_in_out t <= sine_in_out u.
Proof.
  intros [Ht Htu] Hu. unfold sine_in_out.
  pose proof PI_RGT_0.
  assert (cos (PI * u) <= cos (PI * t)); [| lra].
  apply cos_decr_1; nra.
Qed.

(** X1: on [0, 1] every easing function of easing.py is non-decreasing and
    stays within [0, 1]. *)
Theorem easing_monotone_in_unit_interval :
  Forall (fun nf =>
            (forall t u, 0 <= t <= u -> u <= 1 -> snd nf t <= snd nf u) /\
            (forall t, 0 <= t <= 1 -> 0 <= snd nf t <= 1))
         easing_functions.
Proof.
  assert (Hrange : forall f : R -> R,
             f 0 = 0 -> f 1 = 1 ->
             (forall t u, 0 <= t <= u -> u <= 1 -> f t <= f u) ->
             forall t, 0 <= t <= 1 -> 0 <= f t <= 1).
  { intros f H0 H1 Hmono t [Ht0 Ht1]. split.
    - rewrite <- H0. apply Hmono; lra.
    - rewrite <- H1. apply Hmono; lra. }
  unfold easing_functions.
  repeat apply List.Forall_cons; try apply List.Forall_nil; cbn [snd].
  - unfold linear. split; intros; lra.
  - unfold quadratic_in. split; intros; nra.
  - unfold quadratic_out. split; intros; nra.
  - split; [exact quadratic_in_out_mono |].
    apply Hrange; [apply quadratic_in_out_ends .. | exact quadratic_in_out_mono].
  - assert (Hm : forall t u, 0 <= t <= u -> u <= 1 -> cubic_in t <= cubic_in u).
    { intros t u Htu _. apply cube_le, Htu. }
    split; [exact Hm |]. apply Hrange; [unfold cubic_in; lra .. | exact Hm].
  - assert (Hm : forall t u, 0 <= t <= u -> u <= 1 -> cubic_out t <= cubic_out u).
    { intros t u Htu Hu. unfold cubic_out.
      assert ((1 - u) ^ 3 <= (1 - t) ^ 3) by (apply cube_le; lra). lra. }
    split; [exact Hm |]. apply Hrange; [unfold cubic_out; lra .. | exact Hm].
  - split; [exact cubic_in_out_mono |].
    apply Hrange; [apply cubic_in_out_ends .. | exact cubic_in_out_mono].
  - split; [exact sine_in_mono |].
    apply Hrange; [apply sine_in_ends .. | exact sine_in_mono].
  - split; [exact sine_out_mono |].
    apply Hrange; [apply sine_out_ends .. | exact sine_out_mono].
  - split; [exact sine_in_out_mono |].
    apply Hrange; [apply sine_in_out_ends .. | exact sine_in_out_mono].
Qed.

End EasingShape.

(** ** Interpolation at the ends *)

Section InterpolationEnds.
Import PyNum Easing.
Local Open Scope R_scope.

(** On integers [%] is the floor modulo of [Z]. *)
Lemma py_mod_IZR (z : Z) : py_mod (IZR z) 360 = IZR (z mod 360).
Proof.
  unfold py_mod.
  pose proof (Z.div_mod z 360 ltac:(lia)) as Hdm.
  pose proof (Z.mod_pos_bound z 360 ltac:(lia)) as [Hlo Hhi].
  apply IZR_le in Hlo. apply IZR_lt in Hhi.
  assert (Hz : IZR z = 360 * IZR (z / 360) + IZR (z mod 360)).
  { rewrite Hdm at 1. rewrite plus_IZR, mult_IZR. reflexivity. }
  replace (Int_part (IZR z / 360)) with (z / 360)%Z.
  - lra.
  - apply Int_part_spec. split; lra.
Qed.

(** X3: for colours with integer components, [interpolate_color] at
    progress 0 is the start colour and at progress 1 the end colour, the hue
    reduced modulo 360. *)
Theorem interpolate_color_endpoints (sh ss sv eh es ev : Z) :
  interpolate_color (IZR sh, IZR ss, IZR sv) (IZR eh, IZR es, IZR ev) 0
  = ((sh mod 360)%Z, ss, sv) /\
  interpolate_color (IZR sh, IZR ss, IZR sv) (IZR eh, IZR es, IZR ev) 1
  = ((eh mod 360)%Z, es, ev).
Proof.
  unfold interpolate_color. split.
  - rewrite !Rmult_0_r, !Rplus_0_r.
    rewrite py_mod_IZR, !py_int_IZR. reflexivity.
  - replace (IZR ss + (IZR es - IZR ss) * 1) with (IZR es) by lra.
    replace (IZR sv + (IZR ev - IZR sv) * 1) with (IZR ev) by lra.
    rewrite !py_int_IZR.
    destruct (Rlt_dec (IZR eh) (IZR sh)) as [_ | _].
    + replace (IZR sh + (IZR eh + 360 - IZR sh) * 1) with (IZR (eh + 1 * 360))
        by (rewrite plus_IZR, mult_IZR; lra).
      rewrite py_mod_IZR, py_int_IZR, Z_mod_plus_full. reflexivity.
    + replace (IZR sh + (IZR eh - IZR sh) * 1) with (IZR eh) by lra.
      rewrite py_mod_IZR, py_int_IZR. reflexivity.
Qed.
End InterpolationEnds.

(** ** Colour transitions over time *)

Section Transitions.
Local Open Scope R_scope.

Lemma fan_out_calls (targets : list device) method args now ts :
  fan_out (map (fun light => call light method args) targets) now ts
  = map (fun light => (Ok tt, mkLoop now [EvCall light method args] ts)) targets.
Proof.
  induction targets as [| d targets IH]; cbn; [reflexivity |].
  rewrite IH. reflexivity.
Qed.

Lemma fan_in_all_ok {A B} (f : A -> loop_state) (b : B) (xs : list A) :
  fan_in (map (fun x => (Ok b, f x)) xs) = Ok (map (fun _ => b) xs).
Proof.
  induction xs as [| x xs IH]; cbn; [reflexivity |]. rewrite IH. reflexivity.
Qed.

Lemma fold_Rmax_same {A} (t : R) (xs : list A) :
  fold_right Rmax t (map (fun _ => t) xs) = t.
Proof.
  induction xs as [| x xs IH]; cbn; [reflexivity |].
  rewrite IH. apply Rmax_left. lra.
Qed.

Lemma last_same {A B} (b : B) (xs : list A) :
  List.last (map (fun _ => b) xs) b = b.
Proof.
  induction xs as [| x xs IH]; [reflexivity |].
  cbn [map]. destruct xs; [reflexivity | exact IH].
Qed.

(** One sampling step sends one call to every target, in one fan-out, and
    takes no time of its own. *)
Lemma send_color_round targets color st :
  send_color targets color st
  = (Ok tt,
     mkLoop (time st)
       (log st ++ [EvGather (map (fun light =>
                                    [EvCall light "set_color" (color_args color)])
                                 targets)])
       (tasks st)).
Proof.
  unfold send_color, bind, gather. rewrite fan_out_calls.
  rewrite !map_map. cbn [snd time log tasks].
  rewrite (fan_in_all_ok
             (fun light => mkLoop (time st)
                             [EvCall light "set_color" (color_args color)]
                             (tasks st)) tt targets).
  rewrite fold_Rmax_same, last_same. reflexivity.
Qed.



(** A negative duration keeps the progress below 1 for ever. *)
Lemma sample_loop_negative f start_color end_color duration start_time targets :
  duration < 0 ->
  forall fuel st,
    start_time <= time st ->
    fst (sample_loop fuel (Easing.PyEasing f) start_color end_color duration
           start_time (send_color targets) st) = Pending.
Proof.
  intros Hd fuel. induction fuel as [| fuel IH]; intros st Hstart.
  - reflexivity.
  - cbn [sample_loop]. unfold bind at 1. cbn [get_time].
    destruct (Req_dec_T duration 0) as [Hz | _]; [lra |].
    destruct (Rge_dec ((time st - start_time) / duration) 1) as [Hge | _].
    + exfalso. apply Rge_le in Hge.
      assert (Hq : (time st - start_time) / duration <= 0); [| lra].
      unfold Rdiv. replace 0 with ((time st - start_time) * 0) by lra.
      apply Rmult_le_compat_l; [lra |].
      apply Rlt_le, Rinv_lt_0_compat, Hd.
    + unfold bind at 1. rewrite send_color_round.
      unfold bind at 1. cbn [sleep].
      apply IH. cbn [time]. rewrite Rmax_left by lra. lra.
Qed.

Lemma run_transition fuel se name start_color end_color duration easing_type
    targets st :
  _get_targets se name st = (Ok targets, st) ->
  run fuel se
    (RLeaf (LightEffect
              (ColorTransitionClosure name start_color end_color duration
                 easing_type) (Some 1%Z))) st
  = ((interpolate_color_over_time fuel start_color end_color duration
        easing_type (send_color targets) ;; ret tt) ;; ret VNone)%async st.
Proof.
  intros Htargets. rewrite run_light_once. cbn [call_closure].
  unfold bind at 1 2 3. rewrite Htargets. reflexivity.
Qed.



(** X5: a colour transition whose duration is 0 raises
    [ZeroDivisionError] at its first step, with nothing sent; one whose
    duration is negative, with an easing function of easing.py, never
    completes. *)
Theorem transition_degenerate_duration se name start_color end_color duration
    easing_type targets st :
  _get_targets se name st = (Ok targets, st) ->
  (forall obj fuel,
      Easing.getitem Easing.globals easing_type = Some obj ->
      duration = 0 ->
      run (S fuel) se
        (RLeaf (LightEffect
                  (ColorTransitionClosure name start_color end_color duration
                     easing_type) (Some 1%Z))) st
      = (Raise ZeroDivisionError, st)) /\
  (forall f fuel,
      Easing.getitem Easing.globals easing_type = Some (Easing.PyEasing f) ->
      duration < 0 ->
      fst (run fuel se
             (RLeaf (LightEffect
                       (ColorTransitionClosure name start_color end_color
                          duration easing_type) (Some 1%Z))) st)
      = Pending).
Proof.
  intros Htargets. split.
  - intros obj fuel Heasing Hz.
    rewrite (run_transition _ _ _ _ _ _ _ _ _ Htargets).
    do 2 apply bind_raise.
    unfold interpolate_color_over_time. rewrite Heasing.
    unfold bind at 1. cbn [get_time sample_loop]. unfold bind at 1. cbn [get_time].
    destruct (Req_dec_T duration 0) as [_ | Hn]; [reflexivity | contradiction].
  - intros f fuel Heasing Hd.
    rewrite (run_transition _ _ _ _ _ _ _ _ _ Htargets).
    unfold interpolate_color_over_time. rewrite Heasing.
    pose proof (sample_loop_negative f start_color end_color duration (time st)
                  targets Hd fuel st (Rle_refl _)) as Hloop.
    unfold bind at 1 2 3. cbn [get_time].
    destruct (sample_loop fuel (Easing.PyEasing f) start_color end_color
                duration (time st) (send_color targets) st) as [[[] | e |] st2];
      cbn [fst] in Hloop; try discriminate. reflexivity.
Qed.

Lemma transition_degenerate_duration_witness :
  run 1 (add_light "lamp" (Device 0) init)
    (RLeaf (LightEffect
              (ColorTransitionClosure "lamp" (0, 0, 0) (120, 100, 100) 0
                 "linear") (Some 1%Z))) fresh_loop
  = (Raise ZeroDivisionError, fresh_loop).
Proof.
  destruct (transition_degenerate_duration (add_light "lamp" (Device 0) init)
              "lamp" (0, 0, 0) (120, 100, 100) 0 "linear" [Device 0] fresh_loop
              eq_refl) as [Hzero _].
  apply (Hzero (Easing.PyEasing Easing.linear) 0%nat); reflexivity.
Defined.
End Transitions.

(** ** Repetition of leaf effects *)

Lemma iterate_appends (l : list event) (body : M unit) :
  (forall st, body st = (Ok tt, mkLoop (time st) (log st ++ l) (tasks st))) ->
  forall n st,
    iterate n body st
    = (Ok tt, mkLoop (time st) (log st ++ concat (List.repeat l n)) (tasks st)).
Proof.
  intros Hbody n. induction n as [| n IH]; intros st; cbn [iterate List.repeat concat].
  - unfold ret. rewrite app_nil_r. destruct st; reflexivity.
  - unfold bind. rewrite Hbody, IH. cbn [time log tasks].
    rewrite <- app_assoc. reflexivity.
Qed.

Lemma for_each_calls (targets : list device) method args st :
  for_each targets (fun light => call light method args) st
  = (Ok tt,
     mkLoop (time st)
       (log st ++ map (fun light => EvCall light method args) targets)
       (tasks st)).
Proof.
  revert st. induction targets as [| d targets IH]; intros st; cbn [for_each map].
  - unfold ret. rewrite app_nil_r. destruct st; reflexivity.
  - unfold bind, call, emit. rewrite IH. cbn [time log tasks].
    rewrite <- app_assoc. reflexivity.
Qed.

Lemma _get_targets_any_state se name st targets st' :
  _get_targets se name st = (Ok targets, st) ->
  _get_targets se name st' = (Ok targets, st').
Proof.
  unfold _get_targets.
  destruct (py_or (lights_get se name) (light_groups_get se name));
    unfold raise, ret; intros H; inversion H; reflexivity.
Qed.

(** X6: a [SoundEffect] with repeat count [n] plays its file [n] times
    in a row (not at all when [n] is not positive) and does nothing else. *)
Theorem sound_effect_plays_repeat_times fuel se sound_file p (n : Z) st :
  run fuel se (RLeaf (SoundEffect sound_file p (Some n))) st
  = (Ok VNone,
     mkLoop (time st)
       (log st ++ List.repeat (EvPlaySound p sound_file) (Z.to_nat n))
       (tasks st)).
Proof.
  rewrite run_RLeaf. cbn [run_leaf repeat_loop].
  apply then_ret_ok with (a := tt).
  rewrite (iterate_appends [EvPlaySound p sound_file]) by reflexivity.
  replace (concat (List.repeat [EvPlaySound p sound_file] (Z.to_nat n)))
    with (List.repeat (EvPlaySound p sound_file) (Z.to_nat n)); [reflexivity |].
  induction (Z.to_nat n) as [| k IH]; cbn; [reflexivity | rewrite <- IH; reflexivity].
Qed.

(** X7: a light effect whose name resolves calls every resolved target
    once, in the order of the target list, and repeats that round [n] times:
    [turn_on] / [turn_off] without arguments, [set_color] with the three
    components of the colour. *)
Theorem light_effect_calls_targets_in_order se name targets st0 :
  _get_targets se name st0 = (Ok targets, st0) ->
  (forall fuel action (n : Z) st,
      run fuel se (RLeaf (LightEffect (LightActionClosure name action) (Some n))) st
      = (Ok VNone,
         mkLoop (time st)
           (log st ++ concat (List.repeat
                                (map (fun light => EvCall light (value action) [])
                                     targets) (Z.to_nat n)))
           (tasks st))) /\
  (forall fuel h s v (n : Z) st,
      run fuel se (RLeaf (LightEffect (LightColorClosure name (h, s, v)) (Some n))) st
      = (Ok VNone,
         mkLoop (time st)
           (log st ++ concat (List.repeat
                                (map (fun light => EvCall light "set_color" [h; s; v])
                                     targets) (Z.to_nat n)))
           (tasks st))).
Proof.
  intros Htargets. split.
  - intros fuel action n st. rewrite run_RLeaf. cbn [run_leaf repeat_loop].
    apply then_ret_ok with (a := tt). apply iterate_appends.
    intros st1. cbn [call_closure].
    rewrite (bind_ok _ _ _ _ _ (_get_targets_any_state _ _ _ _ st1 Htargets)).
    apply for_each_calls.
  - intros fuel h s v n st. rewrite run_RLeaf. cbn [run_leaf repeat_loop].
    apply then_ret_ok with (a := tt). apply iterate_appends.
    intros st1. cbn [call_closure].
    rewrite (bind_ok _ _ _ _ _ (_get_targets_any_state _ _ _ _ st1 Htargets)).
    apply for_each_calls.
Qed.

Lemma light_effect_calls_targets_in_order_witness :
  let se := add_light_group "pair" ["left"; "right"]
              (add_light "right" (Device 1) (add_light "left" (Device 0) init)) in
  run 0 se (RLeaf (LightEffect (LightActionClosure "pair" TURN_OFF) (Some 2%Z)))
    fresh_loop
  = (Ok VNone,
     mkLoop 0 [EvCall (Device 0) "turn_off" []; EvCall (Device 1) "turn_off" [];
               EvCall (Device 0) "turn_off" []; EvCall (Device 1) "turn_off" []] []).
Proof.
  intros se.
  destruct (light_effect_calls_targets_in_order se "pair" [Device 0; Device 1]
              fresh_loop eq_refl) as [Haction _].
  exact (Haction 0%nat TURN_OFF 2%Z fresh_loop).
Defined.

(** ** Effects that never complete *)

Lemma unbounded_leaf_not_ok fuel se l st v st' :
  leaf_repeat l = None ->
  run fuel se (RLeaf l) st <> (Ok v, st').
Proof.
  intros Hr H. rewrite run_RLeaf in H.
  destruct l as [f p r | c r | f a k]; cbn in Hr; try discriminate; subst r;
    cbn [run_leaf repeat_loop] in H;
    apply bind_ok_inv in H as ([] & st1 & H & _);
    exact (forever_not_ok _ _ _ _ _ H).
Qed.

Lemma play_loop_ok_each fuel se todo acc st r st' :
  play_loop fuel se todo acc st = (Ok r, st') ->
  forall e, In e todo -> exists st1 v st2, run fuel se e st1 = (Ok v, st2).
Proof.
  revert acc st. induction todo as [| x todo IH]; intros acc st H e Hin.
  - destruct Hin.
  - cbn [play_loop] in H. apply bind_ok_inv in H as (v & st1 & Hrun & H).
    destruct Hin as [<- | Hin].
    + exists st, v, st1. exact Hrun.
    + exact (IH _ _ H e Hin).
Qed.

(** X8: when the top-level list holds an effect with unbounded repeat (a
    leaf, or a section, which at top level is run inline), [play] never
    reports completion, whatever else the list holds. *)
Theorem unbounded_top_level_blocks_play se e fuel :
  In e (effects se) ->
  (match e with
   | RLeaf l => leaf_repeat l = None
   | RSection s =>
       exists sec, sections (heap se) !! s = Some sec /\ sec_repeat sec = None
   end) ->
  fst (play fuel se) <> Ok tt.
Proof.
  intros Hin Hunbounded Hok. unfold play in Hok.
  destruct (_play_async fuel se fresh_loop) as [r st] eqn:Hplay.
  cbn [fst] in Hok. subst r. unfold _play_async in Hplay.
  apply bind_ok_inv in Hplay as (collected & st1 & Hloop & _).
  destruct (play_loop_ok_each _ _ _ _ _ _ _ Hloop e Hin) as (sta & v & stb & Hrun).
  destruct e as [l | s].
  - exact (unbounded_leaf_not_ok _ _ _ _ _ _ Hunbounded Hrun).
  - destruct Hunbounded as (sec & Hs & Hr).
    exact (unbounded_section_not_ok _ _ _ _ _ _ _ Hs Hr Hrun).
Qed.

Lemma unbounded_top_level_blocks_play_witness :
  let se := add_sound "outro.wav" None
              (section None None None (add_light_on "lamp")
                 (add_light "lamp" (Device 0) init)) in
  fst (play 7 se) <> Ok tt.
Proof.
  intros se.
  apply (unbounded_top_level_blocks_play se (RSection 0) 7).
  - left. reflexivity.
  - exists (mkSection 0 false None None). split; reflexivity.
Defined.

(** ** Failure and timing of composite runs *)

(** X9: [play] runs the top-level effects in list order and stops at the
    first one that raises: the exception is that of [play], and the effects
    after it are not run. *)
Theorem play_stops_at_first_failure se before failing after fuel collected st1
    e st2 :
  effects se = before ++ failing :: after ->
  play_loop fuel se before [] fresh_loop = (Ok collected, st1) ->
  run fuel se failing st1 = (Raise e, st2) ->
  play fuel se = (Raise e, st2).
Proof.
  intros Heffects Hbefore Hfail. unfold play, _play_async. rewrite Heffects.
  apply bind_raise. rewrite play_loop_app, (bind_ok _ _ _ _ _ Hbefore).
  cbn [play_loop]. apply bind_raise. exact Hfail.
Qed.

Lemma play_stops_at_first_failure_witness :
  let se := add_sound "outro.wav" None
              (add_light_on "ghost" (add_sound "intro.wav" None init)) in
  play 0 se
  = (Raise (ValueError "Light or group 'ghost' not found."),
     mkLoop 0 [EvPlaySound DefaultPlayer "intro.wav"] []).
Proof.
  intros se.
  apply (play_stops_at_first_failure se
           [RLeaf (SoundEffect "intro.wav" DefaultPlayer (Some 1%Z))]
           (RLeaf (LightEffect (LightActionClosure "ghost" TURN_ON) (Some 1%Z)))
           [RLeaf (SoundEffect "outro.wav" DefaultPlayer (Some 1%Z))]
           0 [] (mkLoop 0 [EvPlaySound DefaultPlayer "intro.wav"] []));
    reflexivity.
Defined.

Section Timing.
Local Open Scope R_scope.

Lemma run_delay fuel se (seconds : R) st :
  run fuel se (RLeaf (LightEffect (DelayClosure seconds) (Some 1%Z))) st
  = (Ok VNone,
     mkLoop (time st + Rmax seconds 0) (log st ++ [EvSleep seconds]) (tasks st)).
Proof. rewrite run_light_once. reflexivity. Qed.

(** X10: a section that runs once over two delays of [a] and [b] seconds
    takes [a + b] in sequential mode and the larger of the two in parallel
    mode. *)
Theorem delays_add_or_overlap se s sec (a b : R) fuel st :
  sections (heap se) !! s = Some sec ->
  sec_repeat sec = Some 1%Z ->
  lists (heap se) !! sec_effects sec
  = Some [RLeaf (LightEffect (DelayClosure a) (Some 1%Z));
          RLeaf (LightEffect (DelayClosure b) (Some 1%Z))] ->
  0 <= a -> 0 <= b ->
  exists st',
    run (S fuel) se (RSection s) st = (Ok VNone, st') /\
    time st' = time st + (if sec_parallel sec then Rmax a b else a + b).
Proof.
  intros Hs Hr Hl Ha Hb. cbn [run]. rewrite Hs, Hr, Hl.
  cbn [default from_option repeat_loop]. unfold Datatypes.id.
  change (Z.to_nat 1) with 1%nat. cbn [iterate].
  destruct (sec_parallel sec).
  - eexists. split.
    + do 2 apply then_ret_ok with (a := tt).
      cbn [map _run_effect].
      unfold bind, gather. cbn [fan_out]. rewrite !run_delay.
      cbn [snd tasks]. rewrite ?run_delay. reflexivity.
    + cbn [time snd map fold_right tasks].
      rewrite (Rmax_left a 0), (Rmax_left b 0) by lra.
      unfold Rmax. repeat destruct (Rle_dec _ _); lra.
  - eexists. split.
    + do 2 apply then_ret_ok with (a := tt).
      cbn [for_each _run_effect].
      unfold bind, ret. rewrite run_delay. rewrite run_delay. reflexivity.
    + cbn [time]. rewrite (Rmax_left a 0), (Rmax_left b 0) by lra. lra.
Qed.

Lemma delays_add_or_overlap_witness :
  let se := section None (Some true) (Some 1%Z)
              (fun se => add_delay 3 (add_delay 2 se)) init in
  exists st',
    run 1%nat se (RSection 0%nat) fresh_loop = (Ok VNone, st') /\
    time st' = time fresh_loop + Rmax 2 3.
Proof.
  intros se.
  apply (delays_add_or_overlap se 0%nat (mkSection 0%nat true (Some 1%Z) None)
           2 3 0%nat fresh_loop); try reflexivity; lra.
Defined.
End Timing.

(** ** What the builder keeps *)

Lemma contains_app l1 l2 a : contains (l1 ++ l2) a = contains l1 a || contains l2 a.
Proof. unfold contains. apply existsb_app. Qed.

Lemma contains_leaf l leaf a : contains (l ++ [RLeaf leaf]) a = contains l a.
Proof. rewrite contains_app. cbn. rewrite !orb_false_r. reflexivity. Qed.

Lemma contains_other l s a :
  s <> a -> contains (l ++ [RSection s]) a = contains l a.
Proof.
  intros Hne. rewrite contains_app. cbn.
  destruct (Nat.eqb_spec s a) as [-> | _]; [contradiction |].
  rewrite !orb_false_r. reflexivity.
Qed.

(** What [section_enter] allocates and leaves alone. *)
Lemma section_enter_spec name parallel repeat se se1 a prev :
  section_enter name parallel repeat se = (se1, (a, prev)) ->
  a = length (sections (heap se)) /\
  prev = _current_section se /\
  length (sections (heap se1)) = S a /\
  effects se1 = effects se /\
  lights se1 = lights se /\
  light_groups se1 = light_groups se /\
  (lists (heap se1) = lists (heap se) \/
   lists (heap se1) = lists (heap se) ++ [[]]).
Proof.
  unfold section_enter.
  destruct (registered se name) as [old |].
  - cbn. intros [= <- <- <-]. cbn. rewrite length_app. cbn.
    repeat split; try lia. left. reflexivity.
  - destruct (name_truthy name); [destruct name |];
      cbn; intros [= <- <- <-]; cbn; rewrite length_app; cbn;
      (repeat split; try lia; right; reflexivity).
Qed.

Lemma section_exit_sections frame se :
  sections (heap (section_exit frame se)) = sections (heap se).
Proof.
  destruct frame as [a [p |]]; unfold section_exit; cbn [set_current heap effects].
  - destruct (sections (heap se) !! p) as [prev |]; [| reflexivity].
    destruct (contains _ a); reflexivity.
  - destruct (contains (effects se) a); reflexivity.
Qed.

Lemma _add_effect_sections l se :
  sections (heap (_add_effect l se)) = sections (heap se).
Proof.
  unfold _add_effect. destruct (_current_section se) as [c |]; [| reflexivity].
  destruct (sections (heap se) !! c); reflexivity.
Qed.

(** The builder only allocates: the number of [Section] objects never
    goes down. *)
Lemma builds_sections_grow se se' :
  builds se se' ->
  length (sections (heap se)) <= length (sections (heap se')).
Proof.
  induction 1 as [se | se se' l _ IH | se se' n d _ IH | se se' n ns _ IH
                 | se se' n p r se1 [a prev] se2 _ IH1 Henter _ IH2].
  - lia.
  - rewrite _add_effect_sections. exact IH.
  - exact IH.
  - exact IH.
  - rewrite section_exit_sections.
    apply section_enter_spec in Henter as (-> & _ & Hlen & _). lia.
Qed.

Lemma unlinked_add_effect a l se : unlinked a se -> unlinked a (_add_effect l se).
Proof.
  intros [Htop Hlists]. unfold _add_effect, unlinked.
  destruct (_current_section se) as [c |].
  - destruct (sections (heap se) !! c) as [cur |]; [| split; assumption].
    cbn [set_effects set_heap set_current list_append effects heap lists sections]. split; [exact Htop |].
    apply Forall_alter; [exact Hlists |].
    intros l0 _ Hl0. cbv beta. rewrite contains_leaf. exact Hl0.
  - cbn [set_effects set_heap set_current list_append effects heap lists sections].
    split; [rewrite contains_leaf; exact Htop | exact Hlists].
Qed.

Lemma unlinked_section_exit x a prev se :
  x <> a -> unlinked x se -> unlinked x (section_exit (a, prev) se).
Proof.
  intros Hne [Htop Hlists]. unfold section_exit, unlinked.
  destruct prev as [p |]; cbn [set_current heap effects].
  - destruct (sections (heap se) !! p) as [parent |]; [| split; assumption].
    destruct (contains _ a); [split; assumption |].
    cbn [set_effects set_heap set_current list_append effects heap lists sections]. split; [exact Htop |].
    apply Forall_alter; [exact Hlists |].
    intros l0 _ Hl0. cbv beta. rewrite contains_other by auto. exact Hl0.
  - destruct (contains (effects se) a); [split; assumption |].
    cbn [set_effects set_heap set_current list_append effects heap lists sections].
    split; [| exact Hlists]. rewrite contains_other by auto. exact Htop.
Qed.

Lemma unlinked_section_enter x name parallel repeat se se1 frame :
  section_enter name parallel repeat se = (se1, frame) ->
  unlinked x se -> unlinked x se1.
Proof.
  destruct frame as [a prev]. intros Henter [Htop Hlists].
  apply section_enter_spec in Henter as (_ & _ & _ & Heff & _ & _ & Hl).
  unfold unlinked. rewrite Heff. split; [exact Htop |].
  destruct Hl as [-> | ->]; [exact Hlists |].
  apply Forall_app. split; [exact Hlists |]. repeat constructor.
Qed.

(** A program over the builder links only the [Section] objects it
    allocates itself: an address that is unlinked before, and is either
    allocated already or still free afterwards, is unlinked afterwards. *)
Lemma builds_keeps_unlinked se se' :
  builds se se' ->
  forall x,
    unlinked x se ->
    x < length (sections (heap se)) \/ length (sections (heap se')) <= x ->
    unlinked x se'.
Proof.
  induction 1 as [se | se se' l _ IH | se se' n d _ IH | se se' n ns _ IH
                 | se se' n p r se1 [a prev] se2 Hb1 IH1 Henter Hb2 IH2];
    intros x Hx Hrange.
  - exact Hx.
  - apply unlinked_add_effect, IH; [exact Hx |].
    rewrite _add_effect_sections in Hrange. exact Hrange.
  - exact (IH x Hx Hrange).
  - exact (IH x Hx Hrange).
  - rewrite section_exit_sections in Hrange.
    pose proof (builds_sections_grow _ _ Hb1) as Hg1.
    pose proof (builds_sections_grow _ _ Hb2) as Hg2.
    pose proof (section_enter_spec _ _ _ _ _ _ _ Henter) as (Ha & _ & Hlen & _).
    apply unlinked_section_exit; [lia |].
    apply IH2; [| lia].
    apply (unlinked_section_enter _ _ _ _ _ _ _ Henter).
    apply IH1; [exact Hx | lia].
Qed.

Lemma unlinked_init x : unlinked x init.
Proof. split; [reflexivity | constructor]. Qed.

(** In a state built from [SpecialEffect()], an address not yet allocated
    is in no list. *)
Lemma built_fresh_unlinked se x :
  builds init se -> length (sections (heap se)) <= x -> unlinked x se.
Proof.
  intros Hb Hx. apply (builds_keeps_unlinked _ _ Hb); [apply unlinked_init |].
  right. exact Hx.
Qed.






Lemma extends_refl se : extends se se.
Proof.
  repeat split; try reflexivity. intros i l Hl. exists l. split; [exact Hl | reflexivity].
Qed.

Lemma extends_trans se1 se2 se3 : extends se1 se2 -> extends se2 se3 -> extends se1 se3.
Proof.
  intros (He1 & Hs1 & Hl1) (He2 & Hs2 & Hl2). repeat split.
  - etransitivity; eassumption.
  - etransitivity; eassumption.
  - intros i l Hl. destruct (Hl1 i l Hl) as (l' & Hl' & Hp).
    destruct (Hl2 i l' Hl') as (l'' & Hl'' & Hp').
    exists l''. split; [exact Hl'' | etransitivity; eassumption].
Qed.

Lemma lists_append_extend (a : addr) (e : effect_ref) (ls : list (list effect_ref)) i l :
  ls !! i = Some l ->
  exists l', alter (fun l0 => l0 ++ [e]) a ls !! i = Some l' /\ l `prefix_of` l'.
Proof.
  intros Hl. destruct (decide (a = i)) as [-> | Hne].
  - exists (l ++ [e]). split; [| apply prefix_app_r; reflexivity].
    rewrite list_lookup_alter_eq, Hl. reflexivity.
  - exists l. split; [| reflexivity].
    rewrite list_lookup_alter_ne by exact Hne. exact Hl.
Qed.

Lemma extends_add_effect l se : extends se (_add_effect l se).
Proof.
  unfold _add_effect. destruct (_current_section se) as [c |].
  - destruct (sections (heap se) !! c) as [cur |]; [| apply extends_refl].
    repeat split; try reflexivity. intros i l0 Hl0. apply lists_append_extend, Hl0.
  - repeat split; try reflexivity.
    + apply prefix_app_r. reflexivity.
    + intros i l0 Hl0. exists l0. split; [exact Hl0 | reflexivity].
Qed.

Lemma extends_section_enter name parallel repeat se se1 frame :
  section_enter name parallel repeat se = (se1, frame) -> extends se se1.
Proof.
  unfold section_enter.
  assert (Hgrow : forall (ls : list (list effect_ref)) (k : list (list effect_ref)) i l,
             ls !! i = Some l ->
             exists l', (ls ++ k) !! i = Some l' /\ l `prefix_of` l').
  { intros ls k i l Hl. exists l. split; [| reflexivity].
    apply lookup_app_l_Some, Hl. }
  destruct (registered se name) as [old |].
  - cbn. intros [= <- <-]. repeat split; cbn; try reflexivity.
    + apply prefix_app_r. reflexivity.
    + intros i l Hl. exists l. split; [exact Hl | reflexivity].
  - destruct (name_truthy name); [destruct name |];
      cbn; intros [= <- <-]; (repeat split; cbn; try reflexivity;
        [apply prefix_app_r; reflexivity | apply Hgrow]).
Qed.

Lemma extends_section_exit frame se : extends se (section_exit frame se).
Proof.
  assert (Hsame : forall c, extends se (set_current c se)).
  { intros c. repeat split; cbn [set_current effects heap]; try reflexivity.
    intros i l Hl. exists l. split; [exact Hl | reflexivity]. }
  destruct frame as [a [p |]]; unfold section_exit.
  - cbn [set_current heap effects].
    destruct (sections (heap se) !! p) as [parent |]; [| apply Hsame].
    destruct (contains _ a); [apply Hsame |].
    repeat split; try reflexivity. intros i l Hl. apply lists_append_extend, Hl.
  - cbn [set_current heap effects].
    destruct (contains (effects se) a); [apply Hsame |].
    repeat split; try reflexivity.
    + apply prefix_app_r. reflexivity.
    + intros i l Hl. exists l. split; [exact Hl | reflexivity].
Qed.

Lemma builds_extends se se' : builds se se' -> extends se se'.
Proof.
  induction 1 as [se | se se' l _ IH | se se' n d _ IH | se se' n ns _ IH
                 | se se' n p r se1 frame se2 _ IH1 Henter _ IH2].
  - apply extends_refl.
  - exact (extends_trans _ _ _ IH (extends_add_effect l se')).
  - exact IH.
  - exact IH.
  - apply (extends_trans _ _ _ IH1).
    apply (extends_trans _ _ _ (extends_section_enter _ _ _ _ _ _ Henter)).
    exact (extends_trans _ _ _ IH2 (extends_section_exit frame se2)).
Qed.



(** X12: the builder is append-only. Whatever program runs, the
    top-level list and every list of the store keep their elements in place
    and only grow at the end, and no [Section] object is removed or
    changed. *)
Theorem builder_is_append_only se se' : builds se se' -> extends se se'.
Proof. exact (builds_extends se se'). Qed.

Lemma builder_is_append_only_witness :
  extends (add_sound "a.wav" None init)
    (section None None (Some 2%Z) (add_light_on "lamp")
       (add_sound "a.wav" None init)).
Proof.
  apply builder_is_append_only.
  apply (builds_section (add_sound "a.wav" None init)
           (add_sound "a.wav" None init) None None (Some 2%Z)
           (fst (section_enter None None (Some 2%Z) (add_sound "a.wav" None init)))
           (0, None)
           (add_light_on "lamp"
              (fst (section_enter None None (Some 2%Z)
                      (add_sound "a.wav" None init))))).
  - apply builds_done.
  - reflexivity.
  - apply builds_add_effect, builds_done.
Defined.

(** ** What a [with] block builds *)

Lemma section_enter_fresh name parallel repeat se :
  registered se name = None ->
  section_enter name parallel repeat se
  = (mkSpecialEffect (lights se) (light_groups se) (effects se)
       (match name with
        | Some n => if name_truthy name then <[n := length (sections (heap se))]>
                                               (named_effects se)
                    else named_effects se
        | None => named_effects se
        end)
       (Some (length (sections (heap se))))
       (mkStore
          (sections (heap se)
           ++ [mkSection (length (lists (heap se)))
                 (match parallel with Some p => p | None => false end)
                 repeat name])
          (lists (heap se) ++ [[]])),
     (length (sections (heap se)), _current_section se)).
Proof.
  intros Hreg. unfold section_enter. rewrite Hreg.
  destruct name as [n |]; [destruct (name_truthy (Some n)) |]; reflexivity.
Qed.

Lemma add_all_in_section leaves :
  forall se a sec L acc,
    _current_section se = Some a ->
    sections (heap se) !! a = Some sec ->
    length L = sec_effects sec ->
    lists (heap se) = L ++ [acc] ->
    add_all leaves se
    = set_heap (mkStore (sections (heap se)) (L ++ [acc ++ map RLeaf leaves])) se.
Proof.
  induction leaves as [| l leaves IH]; intros se a sec L acc Hcur Hsec Hlen Hlists.
  - cbn. rewrite app_nil_r, <- Hlists. destruct se as [? ? ? ? ? []]. reflexivity.
  - unfold add_all. cbn [fold_left]. fold (add_all leaves (_add_effect l se)).
    assert (Hstep : _add_effect l se
                    = set_heap (mkStore (sections (heap se)) (L ++ [acc ++ [RLeaf l]])) se).
    { unfold _add_effect. rewrite Hcur, Hsec. unfold list_append.
      rewrite Hlists, <- Hlen.
      replace (length L) with (length L + 0) by lia.
      rewrite alter_app_r. reflexivity. }
    rewrite Hstep.
    rewrite (IH _ a sec L (acc ++ [RLeaf l])); try assumption; try reflexivity.
    cbn [set_heap heap sections lights light_groups effects named_effects
         _current_section map].
    rewrite <- app_assoc. reflexivity.
Qed.

(** X13: a [with] block opened at top level under a name that is not
    registered (or under no name) creates one [Section] with the given mode
    and repeat count, whose list holds exactly the leaves added inside the
    block, in order; the leaves do not reach the top-level list, which gains
    the new section only, and the insertion target is the top level again
    afterwards. *)
Theorem with_block_collects_its_leaves se name parallel repeat leaves :
  builds init se ->
  _current_section se = None ->
  registered se name = None ->
  let se' := section name parallel repeat (add_all leaves) se in
  effects se' = effects se ++ [RSection (length (sections (heap se)))] /\
  sections (heap se')
  = sections (heap se)
    ++ [mkSection (length (lists (heap se)))
          (match parallel with Some p => p | None => false end) repeat name] /\
  lists (heap se') = lists (heap se) ++ [map RLeaf leaves] /\
  _current_section se' = None.
Proof.
  intros Hbuilt Hcur Hreg se'. subst se'. unfold section.
  rewrite (section_enter_fresh _ _ _ _ Hreg).
  match goal with
  | |- context [add_all leaves ?s1] =>
      rewrite (add_all_in_section leaves s1 (length (sections (heap se)))
                 (mkSection (length (lists (heap se)))
                    (match parallel with Some p => p | None => false end)
                    repeat name)
                 (lists (heap se)) [])
  end; try reflexivity.
  - unfold section_exit. rewrite Hcur.
    cbn [set_current set_heap heap effects sections lists app].
    destruct (built_fresh_unlinked se (length (sections (heap se))) Hbuilt
                ltac:(lia)) as [Htop _].
    rewrite Htop. cbn. repeat split.
  - cbn [heap sections]. apply list_lookup_middle. reflexivity.
Qed.

Lemma with_block_collects_its_leaves_witness :
  let se := add_sound "intro.wav" None init in
  let se' := section (Some "verse") (Some true) (Some 2%Z)
               (add_all [CustomEffect "fog" [] []; CustomEffect "flash" [] []]) se in
  effects se' = [RLeaf (SoundEffect "intro.wav" DefaultPlayer (Some 1%Z)); RSection 0] /\
  lists (heap se') = [[RLeaf (CustomEffect "fog" [] []); RLeaf (CustomEffect "flash" [] [])]].
Proof.
  intros se se'.
  destruct (with_block_collects_its_leaves se (Some "verse") (Some true) (Some 2%Z)
              [CustomEffect "fog" [] []; CustomEffect "flash" [] []])
    as (Heff & _ & Hlists & _).
  - apply builds_add_effect, builds_done.
  - reflexivity.
  - reflexivity.
  - split; [exact Heff | exact Hlists].
Defined.

(** ** Groups *)

(** X14: a group is a snapshot. Its targets are the lights that were
    registered under the member names when the group was formed, in the
    order of the names and without the unregistered ones; a light registered
    afterwards under another name than the group's does not change them. *)
Theorem light_group_is_a_snapshot se group light_names name light st :
  lights se !! group = None ->
  name <> group ->
  _get_targets (add_light name light (add_light_group group light_names se)) group st
  = (Ok (omap (fun ln => lights se !! ln) light_names), st).
Proof.
  intros Hfree Hne. unfold _get_targets, lights_get, light_groups_get.
  cbn [add_light add_light_group lights light_groups].
  rewrite lookup_insert_ne by exact Hne. rewrite Hfree, lookup_insert_eq.
  cbn [py_or truthy]. reflexivity.
Qed.

Lemma light_group_is_a_snapshot_witness :
  _get_targets
    (add_light "right" (Device 1)
       (add_light_group "pair" ["left"; "right"] (add_light "left" (Device 0) init)))
    "pair" fresh_loop
  = (Ok [Device 0], fresh_loop).
Proof.
  apply (light_group_is_a_snapshot (add_light "left" (Device 0) init) "pair"
           ["left"; "right"] "right" (Device 1) fresh_loop).
  - reflexivity.
  - discriminate.
Defined.

(** ** The registry of named sections *)

Lemma _add_effect_named l se : named_effects (_add_effect l se) = named_effects se.
Proof.
  unfold _add_effect. destruct (_current_section se) as [c |]; [| reflexivity].
  destruct (sections (heap se) !! c); reflexivity.
Qed.

Lemma section_exit_named frame se :
  named_effects (section_exit frame se) = named_effects se.
Proof.
  destruct frame as [a [p |]]; unfold section_exit;
    cbn [set_current heap effects named_effects].
  - destruct (sections (heap se) !! p) as [parent |]; [| reflexivity].
    destruct (contains _ a); reflexivity.
  - destruct (contains (effects se) a); reflexivity.
Qed.

Lemma registered_of_named se n a :
  name_truthy (Some n) = true ->
  named_effects se !! n = Some a ->
  registered se (Some n) = sections (heap se) !! a.
Proof. intros Ht Hn. unfold registered. rewrite Ht, Hn. reflexivity. Qed.

Lemma section_enter_registry name parallel repeat se se1 frame :
  registry_ok se ->
  section_enter name parallel repeat se = (se1, frame) ->
  registry_ok se1 /\
  forall n a, named_effects se !! n = Some a -> named_effects se1 !! n = Some a.
Proof.
  unfold registry_ok. intros Hok. unfold section_enter.
  destruct (registered se name) as [old |] eqn:Hreg.
  - cbn. intros [= <- _]. cbn. split; [| auto].
    intros n a Hn. destruct (Hok n a Hn) as [Ht Ha].
    rewrite length_app. cbn. split; [exact Ht | lia].
  - assert (Hplain : forall n a,
               named_effects se !! n = Some a ->
               name_truthy (Some n) = true /\
               a < length (sections (heap se)
                           ++ [mkSection (length (lists (heap se)))
                                 (match parallel with Some p => p | None => false end)
                                 repeat name])).
    { intros n a Hn. destruct (Hok n a Hn) as [Ht Ha].
      rewrite length_app. cbn. split; [exact Ht | lia]. }
    assert (Hplain0 : registry_ok
              (set_heap (mkStore (sections (heap se)
                                  ++ [mkSection (length (lists (heap se)))
                                        (match parallel with Some p => p | None => false end)
                                        repeat name])
                                 (lists (heap se) ++ [[]])) se)).
    { exact Hplain. }
    clear Hplain0.
    destruct (name_truthy name) eqn:Htruthy; [destruct name as [n0 |] |];
      cbn; intros [= <- _]; cbn; try (split; [exact Hplain | auto]).
    split.
    + intros n a. cbn. rewrite length_app. cbn.
      destruct (decide (n0 = n)) as [-> | Hne].
      * rewrite lookup_insert_eq. intros [= <-]. split; [exact Htruthy | lia].
      * rewrite lookup_insert_ne by exact Hne. intros Hn.
        destruct (Hok n a Hn) as [Ht Ha]. split; [exact Ht | lia].
    + intros n a Hn. cbn.
      destruct (decide (n0 = n)) as [-> | Hne].
      * exfalso. destruct (Hok n a Hn) as [Ht Ha].
        rewrite (registered_of_named _ _ _ Ht Hn) in Hreg.
        apply lookup_lt_is_Some_2 in Ha. destruct Ha as [sec Hsec].
        unfold addr in Hreg. rewrite Hsec in Hreg. discriminate.
      * rewrite lookup_insert_ne by exact Hne. exact Hn.
Qed.

Lemma builds_registry se se' :
  builds se se' ->
  registry_ok se ->
  registry_ok se' /\
  forall n a, named_effects se !! n = Some a -> named_effects se' !! n = Some a.
Proof.
  induction 1 as [se | se se' l _ IH | se se' n0 d _ IH | se se' n0 ns _ IH
                 | se se' n0 p r se1 frame se2 _ IH1 Henter _ IH2];
    intros Hok.
  - split; [exact Hok | auto].
  - destruct (IH Hok) as [Hok' Hkeep]. split.
    + unfold registry_ok.
      intros n a. rewrite _add_effect_named, _add_effect_sections. apply Hok'.
    + intros n a Hn. rewrite _add_effect_named. exact (Hkeep n a Hn).
  - exact (IH Hok).
  - exact (IH Hok).
  - destruct (IH1 Hok) as [Hok1 Hkeep1].
    destruct (section_enter_registry _ _ _ _ _ _ Hok1 Henter) as [Hok2 Hkeep2].
    destruct (IH2 Hok2) as [Hok3 Hkeep3]. split.
    + unfold registry_ok.
      intros n a. rewrite section_exit_named, section_exit_sections. apply Hok3.
    + intros n a Hn. rewrite section_exit_named. auto.
Qed.

Lemma registry_ok_init : registry_ok init.
Proof. intros n a Hn. cbn in Hn. rewrite lookup_empty in Hn. discriminate. Qed.

(** X15: a name keeps the [Section] object it was first registered
    with. However the program goes on, the registry maps the name to the same
    address, the object there is unchanged, and it is the one that
    [section(name=...)] finds and whose list it shares. *)
Theorem registered_name_keeps_its_section se se' n a :
  builds init se ->
  named_effects se !! n = Some a ->
  builds se se' ->
  named_effects se' !! n = Some a /\
  exists sec,
    sections (heap se) !! a = Some sec /\
    sections (heap se') !! a = Some sec /\
    registered se' (Some n) = Some sec.
Proof.
  intros Hbuilt Hn Hmore.
  destruct (builds_registry _ _ Hbuilt registry_ok_init) as [Hok _].
  destruct (builds_registry _ _ Hmore Hok) as [Hok' Hkeep].
  pose proof (Hkeep n a Hn) as Hn'. split; [exact Hn' |].
  destruct (Hok n a Hn) as [Ht Ha].
  apply lookup_lt_is_Some_2 in Ha. destruct Ha as [sec Hsec].
  destruct (builds_extends _ _ Hmore) as (_ & Hprefix & _).
  assert (Hsec' : sections (heap se') !! a = Some sec)
    by exact (prefix_lookup_Some _ _ _ _ Hsec Hprefix).
  exists sec. repeat split; try assumption.
  rewrite (registered_of_named _ _ _ Ht Hn'). exact Hsec'.
Qed.

Lemma registered_name_keeps_its_section_witness :
  let se := section (Some "chorus") None (Some 1%Z) (add_sound "a.wav" None) init in
  let se' := add_light "lamp" (Device 0) (add_sound "b.wav" None se) in
  named_effects se' !! "chorus" = Some 0 /\
  registered se' (Some "chorus") = Some (mkSection 0 false (Some 1%Z) (Some "chorus")).
Proof.
  intros se se'.
  destruct (registered_name_keeps_its_section se se' "chorus" 0)
    as (Hnamed & sec & Hsec & _ & Hreg).
  - apply (builds_section init init (Some "chorus") None (Some 1%Z)
             (fst (section_enter (Some "chorus") None (Some 1%Z) init)) (0, None)
             (add_sound "a.wav" None
                (fst (section_enter (Some "chorus") None (Some 1%Z) init)))).
    + apply builds_done.
    + reflexivity.
    + apply builds_add_effect, builds_done.
  - reflexivity.
  - apply builds_add_light, builds_add_effect, builds_done.
  - split; [exact Hnamed |]. rewrite Hreg. rewrite <- Hsec. reflexivity.
Defined.

Lemma _play_async_awaits_nothing_witness :
  exists st,
    play_loop 1 strobe_show (effects strobe_show) [] fresh_loop = (Ok [], st) /\
    _play_async 1 strobe_show fresh_loop = (Ok tt, st) /\
    tasks st = [1].
Proof.
  eexists. split; [reflexivity |]. split; [| reflexivity].
  apply (_play_async_awaits_nothing 1 strobe_show fresh_loop []). reflexivity.
Defined.

(** ** Sections of any length and repeat count *)

Section Composite.
Variables (fuel : nat) (se : SpecialEffect).

Lemma iterate_logs (body : M unit) (l : list event) :
  (forall st, exists st', body st = (Ok tt, st') /\ log st' = log st ++ l) ->
  forall n st, exists st',
      iterate n body st = (Ok tt, st') /\
      log st' = log st ++ concat (List.repeat l n).
Proof.
  intros Hbody n. induction n as [| n IH]; intros st; cbn [iterate List.repeat concat].
  - exists st. split; [reflexivity | symmetry; apply app_nil_r].
  - destruct (Hbody st) as (st1 & H1 & L1). destruct (IH st1) as (st2 & H2 & L2).
    exists st2. split.
    + unfold bind. rewrite H1. exact H2.
    + rewrite L2, L1, <- app_assoc. reflexivity.
Qed.

Lemma for_each_children cs ls :
  Forall2 (appends fuel se) cs ls ->
  forall st, exists st',
      for_each cs (fun effect =>
                     (_run_effect (run fuel se) (heap se) effect ;; ret tt)%async) st
      = (Ok tt, st') /\
      log st' = log st ++ concat ls.
Proof.
  induction 1 as [| c l cs ls Hc _ IH]; intros st; cbn [for_each concat].
  - exists st. split; [reflexivity | symmetry; apply app_nil_r].
  - destruct (Hc st) as (st1 & H1 & L1). destruct (IH st1) as (st2 & H2 & L2).
    exists st2. split.
    + rewrite (_run_effect_inline _ _ _ _ _ _ H1).
      rewrite bind_assoc, (bind_ok _ _ _ _ _ H1). exact H2.
    + rewrite L2, L1, <- app_assoc. reflexivity.
Qed.

Lemma fan_out_children cs ls :
  Forall2 (appends fuel se) cs ls ->
  forall now ts,
    let outs := fan_out (map (_run_effect (run fuel se) (heap se)) cs) now ts in
    fan_in outs = Ok (map (fun _ => VNone) cs) /\
    map (fun o => log (snd o)) outs = ls.
Proof.
  induction 1 as [| c l cs ls Hc _ IH]; intros now ts; cbn [map fan_out fan_in].
  - split; reflexivity.
  - destruct (Hc (mkLoop now [] ts)) as (st1 & H1 & L1).
    rewrite (_run_effect_inline _ _ _ _ _ _ H1), H1. cbn [snd fan_in map].
    destruct (IH now (tasks st1)) as [Hin Hlogs].
    rewrite Hin, Hlogs, L1. split; reflexivity.
Qed.

(** X17: a section whose children each return and append a log of their
    own appends, in sequential mode, the children's logs in list order, once
    per iteration; in parallel mode it appends one fan-out per iteration
    with one branch per child, each branch holding that child's log. *)
Theorem section_log_of_children s sec cs ls (n : Z) :
  sections (heap se) !! s = Some sec ->
  sec_repeat sec = Some n ->
  lists (heap se) !! sec_effects sec = Some cs ->
  Forall2 (appends fuel se) cs ls ->
  forall st, exists st',
      run (S fuel) se (RSection s) st = (Ok VNone, st') /\
      log st'
      = log st ++ concat (List.repeat
                            (if sec_parallel sec then [EvGather ls] else concat ls)
                            (Z.to_nat n)).
Proof.
  intros Hs Hr Hl Hcs st. cbn [run]. rewrite Hs, Hr, Hl.
  cbn [default from_option repeat_loop]. unfold Datatypes.id.
  destruct (sec_parallel sec).
  - destruct (iterate_logs
                (gather (map (_run_effect (run fuel se) (heap se)) cs) ;; ret tt)%async
                [EvGather ls]) with (n := Z.to_nat n) (st := st)
      as (st' & Hrun & Hlog).
    + intros st0. eexists. unfold bind, gather.
      destruct (fan_out_children cs ls Hcs (time st0) (tasks st0)) as [Hin Hlogs].
      rewrite Hin, Hlogs. split; reflexivity.
    + exists st'. split; [| exact Hlog]. apply then_ret_ok with (a := tt). exact Hrun.
  - destruct (iterate_logs
                (for_each cs (fun effect =>
                   (_run_effect (run fuel se) (heap se) effect ;; ret tt)%async))
                (concat ls) (for_each_children cs ls Hcs) (Z.to_nat n) st)
      as (st' & Hrun & Hlog).
    exists st'. split; [| exact Hlog]. apply then_ret_ok with (a := tt). exact Hrun.
Qed.
End Composite.

Lemma section_log_of_children_witness :
  let se := section None (Some true) (Some 2%Z)
              (add_all [SoundEffect "boom.wav" DefaultPlayer (Some 1%Z);
                        CustomEffect "fog" [] []]) init in
  exists st',
    run 1 se (RSection 0) fresh_loop = (Ok VNone, st') /\
    log st' = [EvGather [[EvPlaySound DefaultPlayer "boom.wav"]; [EvThread "fog" [] []]];
               EvGather [[EvPlaySound DefaultPlayer "boom.wav"]; [EvThread "fog" [] []]]].
Proof.
  intros se.
  apply (section_log_of_children 0 se 0 (mkSection 0 true (Some 2%Z) None)
           [RLeaf (SoundEffect "boom.wav" DefaultPlayer (Some 1%Z));
            RLeaf (CustomEffect "fog" [] [])]
           [[EvPlaySound DefaultPlayer "boom.wav"]; [EvThread "fog" [] []]]
           2%Z eq_refl eq_refl eq_refl).
  repeat constructor; intros st; eexists; split; reflexivity.
Defined.

(** * [interpolate_color] in binary64 *)

Section InterpolationBinary64.
Import Binary64 Spec.
Local Open Scope Z_scope.

Local Opaque Z.mul Z.pow Z.div Z.modulo.

Lemma truncate_inject_Z z : truncate (inject_Z z) = z.
Proof.
  unfold truncate, Qle_bool, Qceiling, Qfloor, Qopp, inject_Z. cbn [Qnum Qden].
  rewrite Z.mul_0_l, Z.mul_1_r, !Z.div_1_r.
  destruct (0 <=? z)%Z; lia.
Qed.

Lemma truncate_dyadic (s : bool) (m d : positive) :
  truncate (cond_Zopp s (Zpos m) # d) = cond_Zopp s (Zpos m / Zpos d).
Proof.
  unfold truncate, Qle_bool, Qceiling, Qfloor, Qopp. cbn [Qnum Qden].
  rewrite Z.mul_0_l, Z.mul_1_r.
  destruct s; unfold cond_Zopp.
  - destruct (Z.leb_spec 0 (- Zpos m)); [lia |]. rewrite Z.opp_involutive. reflexivity.
  - destruct (Z.leb_spec 0 (Zpos m)); [reflexivity | lia].
Qed.

Lemma pow_pos_nonneg (e : Z) : (0 <= e -> 0 < 2 ^ e)%Z.
Proof. intros. apply Z.pow_pos_nonneg; lia. Qed.

(** [int()] is the truncation of the number the float stands for. *)
Lemma py_int_truncates x q : exact x = Some q -> py_int x = Value (truncate q).
Proof.
  destruct x as [s | s | | s m e]; unfold exact, py_int; try discriminate.
  - intros [= <-]. reflexivity.
  - intros [= <-]. f_equal. destruct e as [| p | k].
    + rewrite truncate_inject_Z. destruct s; reflexivity.
    + rewrite truncate_inject_Z. destruct s; unfold cond_Zopp; lia.
    + rewrite truncate_dyadic. reflexivity.
Qed.

Lemma div_of_mod_mul (m d : Z) :
  (0 < d -> (m mod (360 * d)) / d = (m / d) mod 360)%Z.
Proof.
  intros Hd. rewrite (Z.mul_comm 360 d), Z.rem_mul_r by lia.
  rewrite Z.mul_comm, Z.div_add by lia.
  rewrite Z.div_small by (apply Z.mod_pos_bound; lia). reflexivity.
Qed.

Lemma exact_nonneg x q :
  exact x = Some q -> (0 <= q)%Q ->
  match x with S754_finite true _ _ => False | _ => True end.
Proof.
  destruct x as [s | s | | [|] m e]; auto. unfold exact. intros [= <-] Hq.
  destruct e as [| p | k]; unfold Qle, inject_Z, cond_Zopp in Hq; cbn [Qnum Qden] in Hq.
  - rewrite Z.pow_0_r in Hq. lia.
  - pose proof (pow_pos_nonneg (Zpos p) ltac:(lia)) as HX.
    destruct (2 ^ Z.pos p)%Z; lia.
  - lia.
Qed.

(** For a float that is not negative, [int(x % 360)] is the integer part of
    [x] reduced modulo 360. *)
Lemma hue_of_nonnegative x q :
  exact x = Some q -> (0 <= q)%Q ->
  py_int (py_mod_360 x) = Value (truncate q mod 360)%Z.
Proof.
  intros Hx Hq. pose proof (exact_nonneg x q Hx Hq) as Hs.
  destruct x as [s | s | | s m e]; try discriminate Hx.
  - injection Hx as <-. reflexivity.
  - destruct s; [contradiction |]. injection Hx as <-.
    unfold py_mod_360, fmod_360. destruct e as [| p | k].
    + rewrite truncate_inject_Z. unfold cond_Zopp.
      pose proof (Z.mod_pos_bound (Zpos m * 2 ^ 0) 360 ltac:(lia)) as Hb.
      destruct ((Zpos m * 2 ^ 0) mod 360)%Z as [| r | r] eqn:Hr; try lia.
      * reflexivity.
      * unfold py_int, cond_Zopp. f_equal. rewrite Z.pow_0_r. lia.
    + rewrite truncate_inject_Z. unfold cond_Zopp.
      pose proof (Z.mod_pos_bound (Zpos m * 2 ^ Zpos p) 360 ltac:(lia)) as Hb.
      destruct ((Zpos m * 2 ^ Zpos p) mod 360)%Z as [| r | r] eqn:Hr; try lia.
      * reflexivity.
      * unfold py_int, cond_Zopp. f_equal. lia.
    + replace (truncate (Z.pos m # 2 ^ k)) with (Zpos m / Zpos (2 ^ k))%Z
        by (symmetry; exact (truncate_dyadic false m (2 ^ k))).
      rewrite <- div_of_mod_mul by lia.
      pose proof (Z.mod_pos_bound (Zpos m) (360 * Zpos (2 ^ k)) ltac:(lia)) as Hb.
      destruct (Zpos m mod (360 * Zpos (2 ^ k)))%Z as [| r | r] eqn:Hr; try lia.
      * reflexivity.
      * reflexivity.
Qed.

Lemma truncate_quot (n : Z) (d : positive) : truncate (n # d) = Z.quot n (Zpos d).
Proof.
  unfold truncate, Qle_bool, Qceiling, Qfloor, Qopp. cbn [Qnum Qden].
  rewrite Z.mul_0_l, Z.mul_1_r.
  destruct (Z.leb_spec 0 n).
  - symmetry. apply Z.quot_div_nonneg; lia.
  - rewrite <- (Z.opp_involutive n) at 2. rewrite Z.quot_opp_l by lia.
    f_equal. symmetry. apply Z.quot_div_nonneg; lia.
Qed.

Lemma remainder_dyadic (n : Z) (d : positive) :
  (remainder (n # d) == Z.rem n (360 * Zpos d) # d)%Q.
Proof.
  unfold remainder, Qdiv, Qinv, Qmult, Qminus, Qplus, Qopp, inject_Z.
  cbn [Qnum Qden]. rewrite truncate_quot.
  pose proof (Z.quot_rem' (n * 1) (Zpos (d * 360))) as Hqr.
  unfold Qeq. cbn [Qnum Qden].
  rewrite !Pos2Z.inj_mul in *. repeat rewrite Z.mul_1_r in *.
  replace (Zpos d * 360)%Z with (360 * Zpos d)%Z in * by lia.
  set (Q := (n ÷ (360 * Z.pos d))%Z) in *.
  set (R := Z.rem n (360 * Z.pos d)) in *.
  clearbody Q R. subst n. ring.
Qed.

Lemma rem_of_signed (s : bool) (m d : Z) :
  (0 < m -> 0 < d -> Z.rem (cond_Zopp s m) d = cond_Zopp s (m mod d))%Z.
Proof.
  intros Hm Hd. destruct s; unfold cond_Zopp.
  - rewrite Z.rem_opp_l by lia. f_equal. apply Z.rem_mod_nonneg; lia.
  - apply Z.rem_mod_nonneg; lia.
Qed.

Lemma cond_Zopp_mul (s : bool) (a b : Z) :
  (cond_Zopp s a * b = cond_Zopp s (a * b))%Z.
Proof. destruct s; unfold cond_Zopp; lia. Qed.

(** [fmod] is exact: it stands for the remainder of the number of [x]. *)
Lemma fmod_360_exact x q :
  exact x = Some q ->
  exists v, exact (fmod_360 x) = Some v /\ (v == remainder q)%Q.
Proof.
  destruct x as [s | s | | s m e]; try discriminate.
  - intros [= <-]. exists 0%Q. split; [reflexivity |].
    rewrite (remainder_dyadic 0 1). rewrite Z.rem_0_l by lia. reflexivity.
  - unfold exact at 1. intros [= <-]. unfold fmod_360. destruct e as [| p | k].
    + rewrite cond_Zopp_mul.
      assert (HM : (0 < Zpos m * 2 ^ 0)%Z) by (rewrite Z.pow_0_r; lia).
      pose proof (remainder_dyadic (cond_Zopp s (Zpos m * 2 ^ 0)) 1) as Hrem.
      rewrite rem_of_signed in Hrem by lia. change (360 * 1)%Z with 360%Z in Hrem.
      pose proof (Z.mod_pos_bound (Zpos m * 2 ^ 0) 360 ltac:(lia)) as Hb.
      destruct ((Zpos m * 2 ^ 0) mod 360)%Z as [| r | r]; try lia.
      * exists 0%Q. split; [reflexivity |]. rewrite Hrem. destruct s; reflexivity.
      * eexists. split; [reflexivity |]. rewrite Hrem.
        rewrite cond_Zopp_mul, Z.pow_0_r, Z.mul_1_r. reflexivity.
    + rewrite cond_Zopp_mul.
      assert (HM : (0 < Zpos m * 2 ^ Zpos p)%Z)
        by (pose proof (pow_pos_nonneg (Zpos p) ltac:(lia)); lia).
      pose proof (remainder_dyadic (cond_Zopp s (Zpos m * 2 ^ Zpos p)) 1) as Hrem.
      rewrite rem_of_signed in Hrem by lia. change (360 * 1)%Z with 360%Z in Hrem.
      pose proof (Z.mod_pos_bound (Zpos m * 2 ^ Zpos p) 360 ltac:(lia)) as Hb.
      destruct ((Zpos m * 2 ^ Zpos p) mod 360)%Z as [| r | r]; try lia.
      * exists 0%Q. split; [reflexivity |]. rewrite Hrem. destruct s; reflexivity.
      * eexists. split; [reflexivity |]. rewrite Hrem.
        rewrite cond_Zopp_mul, Z.pow_0_r, Z.mul_1_r. reflexivity.
    + pose proof (remainder_dyadic (cond_Zopp s (Zpos m)) (2 ^ k)) as Hrem.
      rewrite rem_of_signed in Hrem by lia.
      pose proof (Z.mod_pos_bound (Zpos m) (360 * Zpos (2 ^ k)) ltac:(lia)) as Hb.
      destruct (Zpos m mod (360 * Zpos (2 ^ k)))%Z as [| r | r]; try lia.
      * exists 0%Q. split; [reflexivity |]. rewrite Hrem. destruct s; reflexivity.
      * eexists. split; [reflexivity |]. rewrite Hrem. reflexivity.
Qed.

(** [%] is [fmod], adjusted to the sign of the divisor. *)
Lemma py_mod_360_of_fmod x v :
  exact (fmod_360 x) = Some v ->
  py_mod_360 x
  = if Qeq_bool v 0 then S754_zero false
    else if Qle_bool 0 v then fmod_360 x
         else add (fmod_360 x) (of_int 360).
Proof.
  unfold py_mod_360. destruct (fmod_360 x) as [s | s | | s m e]; try discriminate.
  - intros [= <-]. reflexivity.
  - unfold exact. intros [= <-].
    assert (HM : (0 < Zpos m * 2 ^ e \/ e < 0)%Z).
    { destruct (Z.leb_spec 0 e); [left | right; lia].
      pose proof (pow_pos_nonneg e ltac:(lia)). lia. }
    destruct e as [| p | k]; unfold Qeq_bool, Qle_bool, inject_Z; cbn [Qnum Qden];
      rewrite ?cond_Zopp_mul, ?Z.mul_1_r, ?Z.mul_0_l;
      destruct s; unfold cond_Zopp;
      repeat match goal with
        | |- context [Z.eqb ?a ?b] => destruct (Z.eqb_spec a b); try lia
        | |- context [Z.leb ?a ?b] => destruct (Z.leb_spec a b); try lia
        end; reflexivity.
Qed.

Local Transparent Z.mul Z.pow Z.div Z.modulo.

(** Where exact arithmetic and binary64 part: from saturation 0 to 10 at
    the float nearest to 0.7 the product rounds to 7.0, and the saturation
    is 7. *)
Lemma interpolate_color_rounds_as_binary64 :
  interpolate_color (of_int 0, of_int 0, of_int 0) (of_int 0, of_int 10, of_int 0)
    (SFdiv prec emax (of_int 7) (of_int 10))
  = Value (0, 7, 0).
Proof. vm_compute. reflexivity. Qed.

(** C4: in binary64, [interpolate_color] returns the three conversions
    to [int] of: the hue blend [start_h + (end_h' - start_h) * progress]
    reduced by [% 360], where [end_h'] is [end_h + 360] when
    [end_h < start_h] and [end_h] otherwise, and the linear blends of
    saturation and value, every operation rounded as IEEE 754 prescribes.
    [int()] is the truncation of the number a float stands for; [% 360] is
    the exact remainder modulo 360, brought to the sign of the divisor; for a
    blend that is not negative the hue is its integer part modulo 360. From
    hue 350 to hue 10 at progress 0.5 the hue is 0. *)
Theorem interpolate_color_binary64 :
  (forall start_h start_s start_v end_h end_s end_v progress h s v,
      let end_h' :=
        if SFltb end_h start_h
        then SFadd 53 1024 end_h (binary_normalize 53 1024 360 0 false)
        else end_h in
      interpolate_color (start_h, start_s, start_v) (end_h, end_s, end_v) progress
      = Value (h, s, v)
      <->
      py_int (py_mod_360
                (SFadd 53 1024 start_h
                   (SFmul 53 1024 (SFsub 53 1024 end_h' start_h) progress)))
      = Value h /\
      py_int (SFadd 53 1024 start_s
                (SFmul 53 1024 (SFsub 53 1024 end_s start_s) progress))
      = Value s /\
      py_int (SFadd 53 1024 start_v
                (SFmul 53 1024 (SFsub 53 1024 end_v start_v) progress))
      = Value v) /\
  (forall x q, exact x = Some q -> py_int x = Value (truncate q)) /\
  (forall x, exact x = None -> forall z, py_int x <> Value z) /\
  (forall x q,
      exact x = Some q ->
      exists r,
        exact (fmod_360 x) = Some r /\
        (r == remainder q)%Q /\
        py_mod_360 x
        = if Qeq_bool r 0 then S754_zero false
          else if Qle_bool 0 r then fmod_360 x
               else SFadd 53 1024 (fmod_360 x) (binary_normalize 53 1024 360 0 false)) /\
  (forall x q,
      exact x = Some q -> (0 <= q)%Q ->
      py_int (py_mod_360 x) = Value (truncate q mod 360)) /\
  (forall s v s' v' h s1 v1,
      interpolate_color (of_int 350, s, v) (of_int 10, s', v') one_half
      = Value (h, s1, v1) ->
      h = 0) /\
  interpolate_color (of_int 350, of_int 50, of_int 60)
    (of_int 10, of_int 70, of_int 90) one_half
  = Value (0, 60, 75).
Proof.
  split; [| split; [| split; [| split; [| split; [| split]]]]].
  - intros start_h start_s start_v end_h end_s end_v progress h s v end_h'.
    subst end_h'. unfold interpolate_color.
    fold prec emax. fold add sub mul lt. fold (of_int 360).
    destruct (py_int (py_mod_360 _)) as [h0 | |];
      destruct (py_int (add start_s _)) as [s0 | |];
      destruct (py_int (add start_v _)) as [v0 | |];
      split; try discriminate; try (intros (? & ? & ?); discriminate).
    + intros [= <- <- <-]. repeat split.
    + intros ([= <-] & [= <-] & [= <-]). reflexivity.
  - exact py_int_truncates.
  - intros [s | s | | s m e]; cbn; intros H z; discriminate.
  - intros x q Hx. destruct (fmod_360_exact x q Hx) as (r & Hr & Heq).
    exists r. split; [exact Hr |]. split; [exact Heq |].
    exact (py_mod_360_of_fmod x r Hr).
  - exact hue_of_nonnegative.
  - intros s v s' v' h s1 v1. unfold interpolate_color.
    change (lt (of_int 10) (of_int 350)) with true. cbv iota.
    change (py_int (py_mod_360
                      (add (of_int 350)
                         (mul (sub (add (of_int 10) (of_int 360)) (of_int 350))
                            one_half))))
      with (Value 0 : outcome Z).
    cbv iota. destruct (py_int (add s _)); try discriminate.
    destruct (py_int (add v _)); try discriminate.
    intros [= <- _ _]. reflexivity.
  - vm_compute. reflexivity.
Qed.

Lemma interpolate_color_binary64_witness :
  exact (S754_finite false 15 (-1)) = Some (15 # 2)%Q /\
  py_int (S754_finite false 15 (-1)) = Value 7 /\
  py_int (py_mod_360 (of_int 725)) = Value 5.
Proof.
  destruct interpolate_color_binary64 as (_ & Htrunc & _ & _ & Hhue & _).
  split; [reflexivity |]. split.
  - exact (Htrunc (S754_finite false 15 (-1)) (15 # 2)%Q eq_refl).
  - refine (Hhue (of_int 725) (6377167441100800 # 8796093022208)%Q _ _).
    + vm_compute. reflexivity.
    + unfold Qle. cbn. lia.
Defined.
End InterpolationBinary64.
